(** * Upload controller of matrix-media-repo: admission, size pre-check and
      duplicate reconciliation

    Shallow embedding of
    [controllers/upload_controller/upload_controller.go].  The controller is
    a sequence of calls to collaborators (datastore, sniffer, hasher, media
    store, metadata store, clock, filesystem, loggers) whose answers it
    inspects.  Each collaborator call is an operation of a small free monad;
    an execution is the list of calls made together with the answers that
    came back.

    Embedded: [IsRequestTooLarge], [trackUploadAsLastAccess], [IsAllowed]
    and [StoreDirect].  [UploadMedia] only limits the stream and draws a
    media id before it calls [StoreDirect]. *)

From Stdlib Require Import ZArith List String Ascii Lia Permutation.
From stdpp Require Import base tactics decidable option list strings.

Local Open Scope string_scope.
Local Open Scope Z_scope.
Local Open Scope list_scope.

(** ** Values exchanged with the collaborators *)

(** Modelled from the spec: [common.ErrMediaNotAllowed] is declared in a
    package outside the controller; section 6 names it the "media not
    allowed" error, distinct from every other error.  All other errors are
    built by [errors.New] here or handed back by a collaborator. *)
Inductive error : Type :=
  | ErrMediaNotAllowed
  | errors_New (msg : string).

Definition Error (err : error) : string :=
  match err with
  | ErrMediaNotAllowed => "media not allowed"
  | errors_New msg => msg
  end.

Global Instance error_eq_dec : EqDecision error.
Proof. solve_decision. Defined.

(** A Go pair [(T, error)] whose value is only read when the error is nil. *)
Inductive result (A : Type) : Type :=
  | Ok (a : A)
  | Fail (err : error).
Arguments Ok {A} a.
Arguments Fail {A} err.

Global Instance result_eq_dec `{EqDecision A} : EqDecision (result A).
Proof. solve_decision. Defined.

(** Modelled from the spec: [types.Media] is declared outside the controller;
    the fields are the ones the controller reads and writes, which are the
    attributes of a media record in section 3. *)
Module Media.
Record t : Type := mk {
  Origin : string;
  MediaId : string;
  UploadName : string;
  ContentType : string;
  UserId : string;
  Sha256Hash : string;
  SizeBytes : Z;
  DatastoreId : string;
  Location : string;
  CreationTs : Z
}.

Global Instance eq_dec : EqDecision t.
Proof. solve_decision. Defined.
End Media.

(** Modelled from the spec: [types.Datastore], the handle [PersistFile]
    returns; the controller reads its id and asks it to resolve a path. *)
Module Datastore.
Record t : Type := mk {
  DatastoreId : string;
  Uri : string
}.

Global Instance eq_dec : EqDecision t.
Proof. solve_decision. Defined.
End Datastore.

(** [config.Get().Uploads].  Go ranges over the [PerUserExclusions] map in an
    unspecified order; the list is the order of one traversal. *)
Record UploadsConfig : Type := {
  MaxSizeBytes : Z;
  AllowedTypes : list string;
  PerUserExclusions : list (string * list string)
}.

(** Pure library functions the controller calls. *)
Class Library : Type := {
  (** [glob.Glob(pattern, subj)] *)
  Glob : string → string → bool;
  (** [strconv.ParseInt(s, 10, 64)] *)
  ParseInt : string → result Z;
  (** [datastore.ResolveFilePath(location)] *)
  ResolveFilePath : Datastore.t → string → string
}.

Definition NoApplicableUploadUser : string := "".

(** ** Collaborator calls *)

Inductive Logger : Type :=
  | log      (* the [*logrus.Entry] handed to the function *)
  | logrus.  (* the package-level logger *)

Inductive Level : Type := InfoLevel | WarnLevel | ErrorLevel.

Global Instance Logger_eq_dec : EqDecision Logger.
Proof. solve_decision. Defined.
Global Instance Level_eq_dec : EqDecision Level.
Proof. solve_decision. Defined.

(** The byte stream handed to [StoreDirect]. *)
Definition Reader : Type := list Byte.byte.

Global Instance byte_eq_dec : EqDecision Byte.byte := Byte.byte_eq_dec.

(** [Op X] is a call whose answer has type [X]. *)
Inductive Op : Type → Type :=
  | PersistFile (contents : Reader) : Op (result (Datastore.t * string))
  | GetMimeType (path : string) : Op (result string)
  | GetFileHash (path : string) : Op (result string)
  | GetByHash (hash : string) : Op (result (list Media.t))
  | Insert (media : Media.t) : Op (option error)
  | ResolveMediaLocation (datastoreId location : string) : Op (result string)
  | FileExists (path : string) : Op (bool * option error)
  | FileSize (path : string) : Op (result Z)
  | Remove (path : string) : Op (option error)
  | Rename (oldpath newpath : string) : Op (option error)
  | NowMillis : Op Z
  | UpsertLastAccess (hash : string) (ts : Z) : Op (option error)
  | Log (logger : Logger) (level : Level) (msg : string) : Op unit.

(** A call together with its answer. *)
Inductive Event : Type :=
  | EvPersistFile (contents : Reader) (r : result (Datastore.t * string))
  | EvGetMimeType (path : string) (r : result string)
  | EvGetFileHash (path : string) (r : result string)
  | EvGetByHash (hash : string) (r : result (list Media.t))
  | EvInsert (media : Media.t) (r : option error)
  | EvResolveMediaLocation (datastoreId location : string) (r : result string)
  | EvFileExists (path : string) (r : bool * option error)
  | EvFileSize (path : string) (r : result Z)
  | EvRemove (path : string) (r : option error)
  | EvRename (oldpath newpath : string) (r : option error)
  | EvNowMillis (r : Z)
  | EvUpsertLastAccess (hash : string) (ts : Z) (r : option error)
  | EvLog (logger : Logger) (level : Level) (msg : string).

Definition event {X} (op : Op X) : X → Event :=
  match op in Op X return X → Event with
  | PersistFile c => EvPersistFile c
  | GetMimeType p => EvGetMimeType p
  | GetFileHash p => EvGetFileHash p
  | GetByHash h => EvGetByHash h
  | Insert m => EvInsert m
  | ResolveMediaLocation d l => EvResolveMediaLocation d l
  | FileExists p => EvFileExists p
  | FileSize p => EvFileSize p
  | Remove p => EvRemove p
  | Rename a b => EvRename a b
  | NowMillis => EvNowMillis
  | UpsertLastAccess h ts => EvUpsertLastAccess h ts
  | Log l lv msg => λ _, EvLog l lv msg
  end.

(** [answer op e] is the answer recorded in [e] when [e] is a call of [op]
    with the same arguments. *)
Definition answer {X} (op : Op X) (e : Event) : option X :=
  match op in Op X return option X with
  | PersistFile c =>
      match e with EvPersistFile c' r => if decide (c = c') then Some r else None | _ => None end
  | GetMimeType p =>
      match e with EvGetMimeType p' r => if decide (p = p') then Some r else None | _ => None end
  | GetFileHash p =>
      match e with EvGetFileHash p' r => if decide (p = p') then Some r else None | _ => None end
  | GetByHash h =>
      match e with EvGetByHash h' r => if decide (h = h') then Some r else None | _ => None end
  | Insert m =>
      match e with EvInsert m' r => if decide (m = m') then Some r else None | _ => None end
  | ResolveMediaLocation d l =>
      match e with
      | EvResolveMediaLocation d' l' r => if decide (d = d' ∧ l = l') then Some r else None
      | _ => None
      end
  | FileExists p =>
      match e with EvFileExists p' r => if decide (p = p') then Some r else None | _ => None end
  | FileSize p =>
      match e with EvFileSize p' r => if decide (p = p') then Some r else None | _ => None end
  | Remove p =>
      match e with EvRemove p' r => if decide (p = p') then Some r else None | _ => None end
  | Rename a b =>
      match e with
      | EvRename a' b' r => if decide (a = a' ∧ b = b') then Some r else None
      | _ => None
      end
  | NowMillis =>
      match e with EvNowMillis r => Some r | _ => None end
  | UpsertLastAccess h ts =>
      match e with
      | EvUpsertLastAccess h' ts' r => if decide (h = h' ∧ ts = ts') then Some r else None
      | _ => None
      end
  | Log l lv msg =>
      match e with
      | EvLog l' lv' msg' => if decide (l = l' ∧ lv = lv' ∧ msg = msg') then Some tt else None
      | _ => None
      end
  end.

(** ** Programs over the collaborator calls *)

Inductive Prog (A : Type) : Type :=
  | Ret (a : A)
  | Call {X : Type} (op : Op X) (k : X → Prog A).
Arguments Ret {A} a.
Arguments Call {A X} op k.

Fixpoint bind {A B} (p : Prog A) (f : A → Prog B) : Prog B :=
  match p with
  | Ret a => f a
  | Call op k => Call op (λ x, bind (k x) f)
  end.

Definition call {X} (op : Op X) : Prog X := Call op Ret.

Declare Scope prog_scope.
Delimit Scope prog_scope with prog.
Bind Scope prog_scope with Prog.
Notation "x ← y ; z" := (bind y (λ x, z))
  (at level 20, y at level 100, z at level 200, only parsing) : prog_scope.
Notation "' x ← y ; z" := (bind y (λ x, z))
  (at level 20, x pattern, y at level 100, z at level 200, only parsing) : prog_scope.
Notation "y ;; z" := (bind y (λ _, z))
  (at level 100, z at level 200, only parsing, right associativity) : prog_scope.
Local Open Scope prog_scope.

(** *** Executions *)

(** [replay p tr] follows [p] along [tr]: every call of [p] must be the next
    event of [tr], and [p] continues with the answer recorded there.  It
    returns the value of [p] and the events left over. *)
Fixpoint replay {A} (p : Prog A) (tr : list Event) : option (A * list Event) :=
  match p with
  | Ret a => Some (a, tr)
  | Call op k =>
      match tr with
      | [] => None
      | e :: tr' =>
          match answer op e with
          | Some x => replay (k x) tr'
          | None => None
          end
      end
  end.

(** [tr] is an execution of [p] that returns [a]. *)
Definition runs {A} (p : Prog A) (tr : list Event) (a : A) : Prop :=
  replay p tr = Some (a, []).

(** An environment with state [S] answers every call. *)
Definition Handler (S : Type) : Type := ∀ X, Op X → S → X * S.

Fixpoint run {S A} (h : Handler S) (p : Prog A) (s : S) : A * S * list Event :=
  match p with
  | Ret a => (a, s, [])
  | Call op k =>
      let '(x, s1) := h _ op s in
      let '(a, s2, tr) := run h (k x) s1 in
      (a, s2, event op x :: tr)
  end.

(** The environment in which every collaborator is unavailable. *)
Definition unavailable : error := errors_New "unavailable".

Definition refuse {X} (op : Op X) : X :=
  match op in Op X return X with
  | PersistFile _ => Fail unavailable
  | GetMimeType _ => Fail unavailable
  | GetFileHash _ => Fail unavailable
  | GetByHash _ => Fail unavailable
  | Insert _ => Some unavailable
  | ResolveMediaLocation _ _ => Fail unavailable
  | FileExists _ => (true, Some unavailable)
  | FileSize _ => Fail unavailable
  | Remove _ => Some unavailable
  | Rename _ _ => Some unavailable
  | NowMillis => 0
  | UpsertLastAccess _ _ => Some unavailable
  | Log _ _ _ => tt
  end.

Definition offline : Handler unit := λ X op s, (refuse op, s).

(** [p] has an execution, and every execution of [p] returns [a]. *)
Definition returns {A} (p : Prog A) (a : A) : Prop :=
  (∃ tr, runs p tr a) ∧ ∀ tr a', runs p tr a' → a' = a.

(** ** The upload controller *)

Section UploadController.
Context `{Library} (cfg : UploadsConfig).

(** [IsRequestTooLarge], lines 21-39. *)
Definition IsRequestTooLarge (contentLength : Z) (contentLengthHeader : string)
    : Prog bool :=
  if MaxSizeBytes cfg <=? 0 then Ret false
  else if contentLength >=? 0 then Ret (contentLength >? MaxSizeBytes cfg)
  else if negb (String.eqb contentLengthHeader "") then
    match ParseInt contentLengthHeader with
    | Fail err =>
        call (Log logrus WarnLevel
                ("Invalid content length header given; assuming too large. Value received: "
                 +:+ contentLengthHeader));;
        Ret true
    | Ok parsed => Ret (parsed >? MaxSizeBytes cfg)
    end
  else Ret false.

(** [trackUploadAsLastAccess], lines 59-64.  The clock is read while the
    arguments of [UpsertLastAccess] are evaluated. *)
Definition trackUploadAsLastAccess (media : Media.t) : Prog unit :=
  now ← call NowMillis;
  err ← call (UpsertLastAccess (Media.Sha256Hash media) now);
  match err with
  | Some err =>
      call (Log logrus WarnLevel ("Failed to upsert the last access time: " +:+ Error err))
  | None => Ret tt
  end.

(** *** [IsAllowed], lines 66-107 *)

Section IsAllowed.
Variables contentType reportedContentType userId : string.

(** [for _, exclType := range userExcl], lines 77-83. *)
Fixpoint rangeUserExcl (userExcl : list string) (allowed : bool) : Prog bool :=
  match userExcl with
  | [] => Ret allowed
  | exclType :: userExcl =>
      if Glob exclType contentType then
        call (Log log InfoLevel
                ("Content type " +:+ contentType +:+ " (reported as "
                 +:+ reportedContentType
                 +:+ ") is allowed due to a per-user policy for " +:+ userId));;
        Ret true
      else rangeUserExcl userExcl allowed
  end.

(** [for user, userExcl := range ...PerUserExclusions], lines 71-89, on
    the flags [(allowed, userMatched)]. *)
Fixpoint rangePerUserExclusions (entries : list (string * list string))
    (allowed userMatched : bool) : Prog (bool * bool) :=
  match entries with
  | [] => Ret (allowed, userMatched)
  | (user, userExcl) :: entries =>
      '(allowed, userMatched) ←
        (if Glob user userId then
           userMatched ←
             (if negb userMatched then
                call (Log log InfoLevel
                        ("Per-user allowed types policy found for " +:+ userId));;
                Ret true
              else Ret userMatched);
           allowed ← rangeUserExcl userExcl allowed;
           Ret (allowed, userMatched)
         else Ret (allowed, userMatched));
      if allowed then Ret (allowed, userMatched)
      else rangePerUserExclusions entries allowed userMatched
  end.

(** [for _, allowedType := range ...AllowedTypes], lines 94-99. *)
Fixpoint rangeAllowedTypes (allowedTypes : list string) (allowed : bool) : bool :=
  match allowedTypes with
  | [] => allowed
  | allowedType :: allowedTypes =>
      if Glob allowedType contentType then true
      else rangeAllowedTypes allowedTypes allowed
  end.

Definition IsAllowed : Prog bool :=
  '(allowed, userMatched) ←
    (if negb (String.eqb userId NoApplicableUploadUser) then
       rangePerUserExclusions (PerUserExclusions cfg) false false
     else Ret (false, false));
  if negb userMatched && negb allowed then
    call (Log log InfoLevel
            "Checking general allowed types due to no matching per-user policy");;
    let allowed := rangeAllowedTypes (AllowedTypes cfg) allowed in
    let allowed :=
      if (Z.of_nat (length (AllowedTypes cfg)) =? 0) then true else allowed in
    Ret allowed
  else Ret allowed.
End IsAllowed.

(** *** [StoreDirect], lines 109-230 *)

(** [for _, record := range records], lines 152-159: the first record with
    the caller's user id, origin and reported content type. *)
Fixpoint rangeRecords (userId origin contentType : string) (records : list Media.t)
    : option Media.t :=
  match records with
  | [] => None
  | record :: records =>
      if String.eqb (Media.UserId record) userId
         && String.eqb (Media.Origin record) origin
         && String.eqb (Media.ContentType record) contentType
      then Some record
      else rangeRecords userId origin contentType records
  end.

Definition StoreDirect (contents : Reader)
    (contentType filename userId origin mediaId : string) : Prog (result Media.t) :=
  r ← call (PersistFile contents);
  match r with
  | Fail err => Ret (Fail err)
  | Ok (datastore, location) =>
  let fileLocation := ResolveFilePath datastore location in
  r ← call (GetMimeType fileLocation);
  match r with
  | Fail err =>
      call (Log log ErrorLevel
              ("Error while checking content type of file: " +:+ Error err));;
      call (Remove fileLocation);;
      Ret (Fail err)
  | Ok fileMime =>
  allowed ← IsAllowed fileMime contentType userId;
  if negb allowed then
    call (Log log WarnLevel
            ("Content type " +:+ fileMime +:+ " (reported as " +:+ contentType
             +:+ ") is not allowed to be uploaded"));;
    call (Remove fileLocation);;
    Ret (Fail ErrMediaNotAllowed)
  else
  r ← call (GetFileHash fileLocation);
  match r with
  | Fail err =>
      call (Remove fileLocation);;
      Ret (Fail err)
  | Ok hash =>
  r ← call (GetByHash hash);
  match r with
  | Fail err =>
      call (Remove fileLocation);;
      Ret (Fail err)
  | Ok records =>
  match records with
  | first :: _ =>
      call (Log log InfoLevel ("Duplicate media for hash " +:+ hash));;
      match
        (if negb (String.eqb userId NoApplicableUploadUser)
         then rangeRecords userId origin contentType records
         else None)
      with
      | Some record =>
          call (Log log InfoLevel
                  "User has already uploaded this media before - returning unaltered media record");;
          call (Remove fileLocation);;
          trackUploadAsLastAccess record;;
          Ret (Ok record)
      | None =>
          now ← call NowMillis;
          let media :=
            {| Media.Origin := origin;
               Media.MediaId := mediaId;
               Media.UploadName := filename;
               Media.ContentType := contentType;
               Media.UserId := userId;
               Media.Sha256Hash := Media.Sha256Hash first;
               Media.SizeBytes := Media.SizeBytes first;
               Media.DatastoreId := Media.DatastoreId first;
               Media.Location := Media.Location first;
               Media.CreationTs := now |} in
          err ← call (Insert media);
          match err with
          | Some err =>
              call (Remove fileLocation);;
              Ret (Fail err)
          | None =>
          r ← call (ResolveMediaLocation (Media.DatastoreId media) (Media.Location media));
          match r with
          | Fail err2 => Ret (Fail err2)
          | Ok targetPath =>
          '(exists_, err) ← call (FileExists targetPath);
          (if bool_decide (err ≠ None) || negb exists_
           then call (Rename fileLocation targetPath)
           else call (Remove fileLocation));;
          trackUploadAsLastAccess media;;
          Ret (Ok media)
          end
          end
      end
  | [] =>
      r ← call (FileSize fileLocation);
      match r with
      | Fail err =>
          call (Remove fileLocation);;
          Ret (Fail err)
      | Ok fileSize =>
      if fileSize <=? 0 then Ret (Fail (errors_New "file has no contents"))
      else
      call (Log log InfoLevel "Persisting new media record");;
      now ← call NowMillis;
      let media :=
        {| Media.Origin := origin;
           Media.MediaId := mediaId;
           Media.UploadName := filename;
           Media.ContentType := contentType;
           Media.UserId := userId;
           Media.Sha256Hash := hash;
           Media.SizeBytes := fileSize;
           Media.DatastoreId := Datastore.DatastoreId datastore;
           Media.Location := location;
           Media.CreationTs := now |} in
      err ← call (Insert media);
      match err with
      | Some err =>
          call (Remove fileLocation);;
          Ret (Fail err)
      | None =>
          trackUploadAsLastAccess media;;
          Ret (Ok media)
      end
      end
  end
  end
  end
  end
  end.

End UploadController.

(** ** The admission rule in closed form *)

Section AdmissionRule.
Context `{Library} (cfg : UploadsConfig).

(** The per-user entry's pattern matches the user id. *)
Definition matches_user (userId : string) (entry : string * list string) : bool :=
  Glob entry.1 userId.

(** Some MIME glob of the per-user entry matches the content type. *)
Definition allows_type (contentType : string) (entry : string * list string) : bool :=
  existsb (λ g, Glob g contentType) entry.2.

(** The general list: open when empty, else some pattern must match. *)
Definition general_rule (contentType : string) : bool :=
  match AllowedTypes cfg with
  | [] => true
  | allowedTypes => existsb (λ g, Glob g contentType) allowedTypes
  end.

(** Section 4.1 of the specification: a user other than the sentinel who is
    matched by per-user entries is decided by those entries alone; everyone
    else by the general list. *)
Definition admission_rule (contentType userId : string) : bool :=
  let matching := List.filter (matches_user userId) (PerUserExclusions cfg) in
  if String.eqb userId NoApplicableUploadUser then general_rule contentType
  else
    match matching with
    | [] => general_rule contentType
    | _ => existsb (allows_type contentType) matching
    end.
End AdmissionRule.

Arguments IsAllowed : simpl never.
Arguments trackUploadAsLastAccess : simpl never.

(** ** What an execution did *)

Definition is_log (e : Event) : bool :=
  match e with EvLog _ _ _ => true | _ => false end.

(** The calls other than log lines, in order. *)
Definition effects (tr : list Event) : list Event :=
  List.filter (λ e, negb (is_log e)) tr.

(** Nothing but log lines. *)
Definition log_only (tr : list Event) : Prop := forallb is_log tr = true.

(** Paths handed to [os.Remove]. *)
Definition removals (tr : list Event) : list string :=
  flat_map (λ e, match e with EvRemove p _ => [p] | _ => [] end) tr.

(** Pairs handed to [os.Rename]. *)
Definition renames (tr : list Event) : list (string * string) :=
  flat_map (λ e, match e with EvRename a b _ => [(a, b)] | _ => [] end) tr.

(** Records handed to [db.Insert]. *)
Definition inserts (tr : list Event) : list Media.t :=
  flat_map (λ e, match e with EvInsert m _ => [m] | _ => [] end) tr.

(** Hash and timestamp handed to [UpsertLastAccess]. *)
Definition upserts (tr : list Event) : list (string * Z) :=
  flat_map (λ e, match e with EvUpsertLastAccess h ts _ => [(h, ts)] | _ => [] end) tr.

(** The error a collaborator answered with, for the calls whose error
    [StoreDirect] hands back to its caller. *)
Definition refusal (e : Event) : option error :=
  match e with
  | EvGetMimeType _ (Fail err)
  | EvGetFileHash _ (Fail err)
  | EvGetByHash _ (Fail err)
  | EvInsert _ (Some err)
  | EvResolveMediaLocation _ _ (Fail err)
  | EvFileSize _ (Fail err) => Some err
  | _ => None
  end.

(** The log line [trackUploadAsLastAccess] writes for the answer [r] of
    [UpsertLastAccess]. *)
Definition upsert_warning (r : option error) : list Event :=
  match r with
  | Some err =>
      [EvLog logrus WarnLevel ("Failed to upsert the last access time: " +:+ Error err)]
  | None => []
  end.

(** Modelled from the spec: the media store of section 6 is outside the
    controller; [get-by-hash(hex) → records] answers with the records of that
    hash, here in the order they were inserted. *)
Definition with_hash (hash : string) (db : list Media.t) : list Media.t :=
  List.filter (λ m, String.eqb (Media.Sha256Hash m) hash) db.

(** Modelled from the spec: the media store of section 6 is outside the
    controller.  [store_replay db tr] reads [tr] against a store holding
    [db]: a lookup that succeeds must answer [with_hash], an insert that
    succeeds appends its record.  It returns the store after [tr], or [None]
    when some lookup of [tr] was not answered this way. *)
Fixpoint store_replay (db : list Media.t) (tr : list Event) : option (list Media.t) :=
  match tr with
  | [] => Some db
  | e :: tr' =>
      match e with
      | EvGetByHash hash (Ok records) =>
          if decide (records = with_hash hash db) then store_replay db tr' else None
      | EvInsert media None => store_replay (db ++ [media]) tr'
      | _ => store_replay db tr'
      end
  end.


(** The user id, origin and reported content type of a record. *)
Definition triple (m : Media.t) : string * string * string :=
  (Media.UserId m, Media.Origin m, Media.ContentType m).



(** ** An environment for examples *)

Module Scenario.

(** A matcher in which [*] stands for any run of characters and every other
    character for itself. *)
Fixpoint glob_chars (pattern : list ascii) : list ascii → bool :=
  match pattern with
  | [] => λ subj, match subj with [] => true | _ => false end
  | c :: pattern' =>
      if Ascii.eqb c "*" then
        fix star (subj : list ascii) : bool :=
          glob_chars pattern' subj
          || match subj with [] => false | _ :: subj' => star subj' end
      else
        λ subj,
          match subj with
          | [] => false
          | c' :: subj' => Ascii.eqb c c' && glob_chars pattern' subj'
          end
  end.

Definition glob (pattern subj : string) : bool :=
  glob_chars (list_ascii_of_string pattern) (list_ascii_of_string subj).

Definition digit (c : ascii) : option Z :=
  let n := Z.of_N (N_of_ascii c) in
  if (48 <=? n) && (n <=? 57) then Some (n - 48) else None.

Fixpoint digits (acc : Z) (s : string) : option Z :=
  match s with
  | EmptyString => Some acc
  | String c s' =>
      match digit c with
      | Some d => digits (10 * acc + d) s'
      | None => None
      end
  end.

(** Decimal integers with an optional sign that fit 64 bits. *)
Definition parse_int (s : string) : result Z :=
  let '(neg, body) :=
    match s with
    | String "-" s' => (true, s')
    | String "+" s' => (false, s')
    | _ => (false, s)
    end in
  match body with
  | EmptyString => Fail (errors_New "invalid syntax")
  | _ =>
      match digits 0 body with
      | None => Fail (errors_New "invalid syntax")
      | Some n =>
          let v := if neg : bool then - n else n in
          if (- 2 ^ 63 <=? v) && (v <=? 2 ^ 63 - 1) then Ok v
          else Fail (errors_New "value out of range")
      end
  end.

Definition library : Library := {|
  Glob := glob;
  ParseInt := parse_int;
  ResolveFilePath := λ ds location, Datastore.Uri ds +:+ "/" +:+ location
|}.

Definition alice : string := "@alice:h".
Definition bob : string := "@bob:h".

Definition png : Reader := [Byte.x89; Byte.x50; Byte.x4e; Byte.x47].

Definition hash_png : string :=
  "4c4b6a3be1314ab86138bef4314dde022e600960d8689a2c8f8631802d20dab6".

Definition store : Datastore.t :=
  {| Datastore.DatastoreId := "ds1"; Datastore.Uri := "/media" |}.

Definition tmp : string := "/media/tmp/upload1".

(** Alice's earlier upload of [png]. *)
Definition alice_png : Media.t :=
  {| Media.Origin := "h";
     Media.MediaId := "AAAA";
     Media.UploadName := "a.png";
     Media.ContentType := "image/png";
     Media.UserId := alice;
     Media.Sha256Hash := hash_png;
     Media.SizeBytes := 4;
     Media.DatastoreId := "ds1";
     Media.Location := "blob/4c4b";
     Media.CreationTs := 1000 |}.

Definition images_only : UploadsConfig :=
  {| MaxSizeBytes := 10485760;
     AllowedTypes := ["image/*"];
     PerUserExclusions := [] |}.

(** Bob's upload of the same bytes, cloned from Alice's record. *)
Definition bob_png : Media.t :=
  {| Media.Origin := "h";
     Media.MediaId := "BBBB";
     Media.UploadName := "b.png";
     Media.ContentType := "image/png";
     Media.UserId := bob;
     Media.Sha256Hash := hash_png;
     Media.SizeBytes := 4;
     Media.DatastoreId := "ds1";
     Media.Location := "blob/4c4b";
     Media.CreationTs := 3000 |}.

Definition general_check : Event :=
  EvLog log InfoLevel
    "Checking general allowed types due to no matching per-user policy".

Definition duplicate_found : Event :=
  EvLog log InfoLevel
    "Duplicate media for hash 4c4b6a3be1314ab86138bef4314dde022e600960d8689a2c8f8631802d20dab6".

(** Section 8, scenario 1: Alice uploads [png] to an empty store. *)
Definition first_upload : list Event :=
  [ EvPersistFile png (Ok (store, "blob/4c4b"));
    EvGetMimeType "/media/blob/4c4b" (Ok "image/png");
    general_check;
    EvGetFileHash "/media/blob/4c4b" (Ok hash_png);
    EvGetByHash hash_png (Ok []);
    EvFileSize "/media/blob/4c4b" (Ok 4);
    EvLog log InfoLevel "Persisting new media record";
    EvNowMillis 1000;
    EvInsert alice_png None;
    EvNowMillis 1001;
    EvUpsertLastAccess hash_png 1001 None ].

(** Section 8, scenario 2: Alice uploads [png] again. *)
Definition second_upload : list Event :=
  [ EvPersistFile png (Ok (store, "tmp/upload1"));
    EvGetMimeType tmp (Ok "image/png");
    general_check;
    EvGetFileHash tmp (Ok hash_png);
    EvGetByHash hash_png (Ok [alice_png]);
    duplicate_found;
    EvLog log InfoLevel
      "User has already uploaded this media before - returning unaltered media record";
    EvRemove tmp None;
    EvNowMillis 2000;
    EvUpsertLastAccess hash_png 2000 None ].

(** Section 8, scenario 3: Bob uploads [png] after Alice. *)
Definition bob_upload : list Event :=
  [ EvPersistFile png (Ok (store, "tmp/upload1"));
    EvGetMimeType tmp (Ok "image/png");
    general_check;
    EvGetFileHash tmp (Ok hash_png);
    EvGetByHash hash_png (Ok [alice_png]);
    duplicate_found;
    EvNowMillis 3000;
    EvInsert bob_png None;
    EvResolveMediaLocation "ds1" "blob/4c4b" (Ok "/media/blob/4c4b");
    EvFileExists "/media/blob/4c4b" (true, None);
    EvRemove tmp None;
    EvNowMillis 3001;
    EvUpsertLastAccess hash_png 3001 None ].

Definition disk_error : error := errors_New "input/output error".

(** Bob's upload when the disk and the metadata store misbehave after the
    insert: the existence check, the rename and the upsert all fail. *)
Definition bob_upload_disk_errors : list Event :=
  [ EvPersistFile png (Ok (store, "tmp/upload1"));
    EvGetMimeType tmp (Ok "image/png");
    general_check;
    EvGetFileHash tmp (Ok hash_png);
    EvGetByHash hash_png (Ok [alice_png]);
    duplicate_found;
    EvNowMillis 3000;
    EvInsert bob_png None;
    EvResolveMediaLocation "ds1" "blob/4c4b" (Ok "/media/blob/4c4b");
    EvFileExists "/media/blob/4c4b" (true, Some disk_error);
    EvRename tmp "/media/blob/4c4b" (Some disk_error);
    EvNowMillis 3001;
    EvUpsertLastAccess hash_png 3001 (Some disk_error);
    EvLog logrus WarnLevel "Failed to upsert the last access time: input/output error" ].

(** Bob's upload when the datastore of Alice's record cannot be resolved. *)
Definition bob_upload_unresolved : list Event :=
  [ EvPersistFile png (Ok (store, "tmp/upload1"));
    EvGetMimeType tmp (Ok "image/png");
    general_check;
    EvGetFileHash tmp (Ok hash_png);
    EvGetByHash hash_png (Ok [alice_png]);
    duplicate_found;
    EvNowMillis 3000;
    EvInsert bob_png None;
    EvResolveMediaLocation "ds1" "blob/4c4b" (Fail disk_error) ].

Definition hash_empty : string :=
  "e3b0c44298fc1c149afbf4c8996fb92427ae41e4649b934ca495991b7852b855".

(** An open general list and no per-user entries. *)
Definition open_config : UploadsConfig :=
  {| MaxSizeBytes := 10485760;
     AllowedTypes := [];
     PerUserExclusions := [] |}.

(** Section 8, scenario 6: an upload without bytes. *)
Definition empty_upload : list Event :=
  [ EvPersistFile [] (Ok (store, "tmp/upload1"));
    EvGetMimeType tmp (Ok "text/plain");
    general_check;
    EvGetFileHash tmp (Ok hash_empty);
    EvGetByHash hash_empty (Ok []);
    EvFileSize tmp (Ok 0) ].

(** Section 8, scenario 5: an open general list with per-user entries. *)
Definition per_user_overrides : UploadsConfig :=
  {| MaxSizeBytes := 10485760;
     AllowedTypes := [];
     PerUserExclusions := [("@alice:*", ["video/mp4"]); ("@charlie:*", [])] |}.

(** The datastore refuses the stream. *)
Definition persist_failure : list Event :=
  [ EvPersistFile png (Fail disk_error) ].

(** The sniffer cannot read the file. *)
Definition sniff_failure : list Event :=
  [ EvPersistFile png (Ok (store, "tmp/upload1"));
    EvGetMimeType tmp (Fail disk_error);
    EvLog log ErrorLevel "Error while checking content type of file: input/output error";
    EvRemove tmp None ].

Definition zip : Reader := [Byte.x50; Byte.x4b; Byte.x03; Byte.x04].

(** Section 8, scenario 4: a zip archive reported as an image. *)
Definition denied_upload : list Event :=
  [ EvPersistFile zip (Ok (store, "tmp/upload1"));
    EvGetMimeType tmp (Ok "application/zip");
    general_check;
    EvLog log WarnLevel
      "Content type application/zip (reported as image/png) is not allowed to be uploaded";
    EvRemove tmp None ].

(** The media store cannot be queried, and the removal fails too. *)
Definition lookup_failure : list Event :=
  [ EvPersistFile png (Ok (store, "tmp/upload1"));
    EvGetMimeType tmp (Ok "image/png");
    general_check;
    EvGetFileHash tmp (Ok hash_png);
    EvGetByHash hash_png (Fail disk_error);
    EvRemove tmp (Some disk_error) ].

(** Images only, of at most eight bytes. *)
Definition eight_bytes : UploadsConfig :=
  {| MaxSizeBytes := 8;
     AllowedTypes := ["image/*"];
     PerUserExclusions := [] |}.

(** Images only, of at most three bytes. *)
Definition three_bytes : UploadsConfig :=
  {| MaxSizeBytes := 3;
     AllowedTypes := ["image/*"];
     PerUserExclusions := [] |}.

Definition carol : string := "@carol:h".

(** Carol's upload of the same bytes, cloned from Alice's record. *)
Definition carol_png : Media.t :=
  {| Media.Origin := "h";
     Media.MediaId := "CCCC";
     Media.UploadName := "c.png";
     Media.ContentType := "image/png";
     Media.UserId := carol;
     Media.Sha256Hash := hash_png;
     Media.SizeBytes := 4;
     Media.DatastoreId := "ds1";
     Media.Location := "blob/4c4b";
     Media.CreationTs := 4000 |}.

(** Carol uploads [png] after Alice and Bob; the file of Alice's record is
    no longer at its location, so the temporary file is moved there. *)
Definition carol_upload : list Event :=
  [ EvPersistFile png (Ok (store, "tmp/upload1"));
    EvGetMimeType tmp (Ok "image/png");
    general_check;
    EvGetFileHash tmp (Ok hash_png);
    EvGetByHash hash_png (Ok [alice_png; bob_png]);
    duplicate_found;
    EvNowMillis 4000;
    EvInsert carol_png None;
    EvResolveMediaLocation "ds1" "blob/4c4b" (Ok "/media/blob/4c4b");
    EvFileExists "/media/blob/4c4b" (false, None);
    EvRename tmp "/media/blob/4c4b" None;
    EvNowMillis 4001;
    EvUpsertLastAccess hash_png 4001 None ].




End Scenario.

(** The file a record points at: hash, size, datastore id and location. *)
Definition blob (m : Media.t) : string * Z * string * string :=
  (Media.Sha256Hash m, Media.SizeBytes m, Media.DatastoreId m, Media.Location m).

(** Records of the same hash point at the same file. *)
Definition deduplicated (db : list Media.t) : Prop :=
  ∀ m1 m2, In m1 db → In m2 db →
    Media.Sha256Hash m1 = Media.Sha256Hash m2 → blob m1 = blob m2.

(** ** [UploadMedia], lines 41-57 *)

(** Modelled from the spec: [io.LimitReader(r, n)] belongs to Go's library;
    section 4.2 has the stream cut at exactly [n] bytes, where the datastore
    sees its end. *)
Definition LimitReader (r : Reader) (n : Z) : Reader := firstn (Z.to_nat n) r.

(** The calls of [UploadMedia]: drawing the media id, closing the stream,
    and the collaborator calls [StoreDirect] makes. *)
Inductive UploadOp : Type → Type :=
  | GenerateRandomString (length : Z) : UploadOp (result string)
  | Close (contents : Reader) : UploadOp (option error)
  | Collaborator {X : Type} (op : Op X) : UploadOp X.

Inductive UploadEvent : Type :=
  | EvGenerateRandomString (length : Z) (r : result string)
  | EvClose (contents : Reader) (r : option error)
  | EvCollaborator (e : Event).

Definition upload_answer {X} (op : UploadOp X) (e : UploadEvent) : option X :=
  match op in UploadOp X return option X with
  | GenerateRandomString n =>
      match e with
      | EvGenerateRandomString n' r => if decide (n = n') then Some r else None
      | _ => None
      end
  | Close c =>
      match e with
      | EvClose c' r => if decide (c = c') then Some r else None
      | _ => None
      end
  | Collaborator op =>
      match e with
      | EvCollaborator e' => answer op e'
      | _ => None
      end
  end.

Inductive UploadProg (A : Type) : Type :=
  | UploadRet (a : A)
  | UploadCall {X : Type} (op : UploadOp X) (k : X → UploadProg A).
Arguments UploadRet {A} a.
Arguments UploadCall {A X} op k.

Fixpoint upload_bind {A B} (p : UploadProg A) (f : A → UploadProg B) : UploadProg B :=
  match p with
  | UploadRet a => f a
  | UploadCall op k => UploadCall op (λ x, upload_bind (k x) f)
  end.

(** A program over the collaborator calls, run inside [UploadMedia]. *)
Fixpoint lift {A} (p : Prog A) : UploadProg A :=
  match p with
  | Ret a => UploadRet a
  | Call op k => UploadCall (Collaborator op) (λ x, lift (k x))
  end.

Fixpoint upload_replay {A} (p : UploadProg A) (tr : list UploadEvent)
    : option (A * list UploadEvent) :=
  match p with
  | UploadRet a => Some (a, tr)
  | UploadCall op k =>
      match tr with
      | [] => None
      | e :: tr' =>
          match upload_answer op e with
          | Some x => upload_replay (k x) tr'
          | None => None
          end
      end
  end.

(** [tr] is an execution of [p] that returns [a]. *)
Definition upload_runs {A} (p : UploadProg A) (tr : list UploadEvent) (a : A) : Prop :=
  upload_replay p tr = Some (a, []).

Section UploadMedia.
Context `{Library} (cfg : UploadsConfig).

(** The deferred [contents.Close()] runs at each return, after the value
    returned has been computed; its own result is dropped. *)
Definition UploadMedia (contents : Reader) (contentType filename userId origin : string)
    : UploadProg (result Media.t) :=
  let data :=
    if MaxSizeBytes cfg >? 0 then LimitReader contents (MaxSizeBytes cfg)
    else contents in
  UploadCall (GenerateRandomString 64) (λ r,
    match r with
    | Fail err =>
        UploadCall (Close contents) (λ _, UploadRet (Fail err))
    | Ok mediaId =>
        upload_bind
          (lift (StoreDirect cfg data contentType filename userId origin mediaId))
          (λ res, UploadCall (Close contents) (λ _, UploadRet res))
    end).

End UploadMedia.

(** The collaborator calls of an execution of [UploadMedia]. *)
Definition collaborator_calls (tr : list UploadEvent) : list Event :=
  flat_map (λ e, match e with EvCollaborator e' => [e'] | _ => [] end) tr.

(** The streams handed to [Close]. *)
Definition closes (tr : list UploadEvent) : list Reader :=
  flat_map (λ e, match e with EvClose c _ => [c] | _ => [] end) tr.

(** The readers handed to [PersistFile]. *)
Definition persisted (tr : list Event) : list Reader :=
  flat_map (λ e, match e with EvPersistFile c _ => [c] | _ => [] end) tr.

(** ** Executions of [UploadMedia] for examples *)

Module UploadScenario.

(** Alice's first upload through [UploadMedia]. *)
Definition first_upload_media : list UploadEvent :=
  EvGenerateRandomString 64 (Ok "AAAA")
    :: map EvCollaborator Scenario.first_upload ++ [EvClose Scenario.png None].

(** No media id can be drawn. *)
Definition no_media_id : list UploadEvent :=
  [ EvGenerateRandomString 64 (Fail Scenario.disk_error); EvClose Scenario.png None ].

(** An upload cut at three bytes, which the datastore then refuses. *)
Definition cut_upload : list UploadEvent :=
  [ EvGenerateRandomString 64 (Ok "AAAA");
    EvCollaborator (EvPersistFile [Byte.x89; Byte.x50; Byte.x4e] (Fail Scenario.disk_error));
    EvClose Scenario.png None ].

End UploadScenario.

(** * Properties *)

(** ** Executions of programs *)

Lemma answer_event {X} (op : Op X) (x : X) : answer op (event op x) = Some x.
Proof.
  destruct op; simpl; try (case_decide; [done | naive_solver]); try done.
  by destruct x; case_decide; [| naive_solver].
Qed.

Lemma answer_Some {X} (op : Op X) (e : Event) (x : X) :
  answer op e = Some x → e = event op x.
Proof.
  destruct op; destruct e; simpl; try discriminate;
    try (case_decide; [| discriminate]); intros [= <-];
    destruct_and?; by subst.
Qed.

Lemma replay_bind {A B} (p : Prog A) (f : A → Prog B) tr :
  replay (bind p f) tr =
  match replay p tr with
  | Some (a, rest) => replay (f a) rest
  | None => None
  end.
Proof.
  revert tr; induction p as [a | X op k IH]; intros tr; simpl; [done |].
  destruct tr as [| e tr]; [done |].
  destruct (answer op e); [apply IH | done].
Qed.

Lemma replay_app {A} (p : Prog A) tr a rest more :
  replay p tr = Some (a, rest) → replay p (tr ++ more) = Some (a, rest ++ more).
Proof.
  revert tr; induction p as [b | X op k IH]; intros tr; simpl.
  - by intros [= -> ->].
  - destruct tr as [| e tr]; [done |]; simpl.
    destruct (answer op e); [apply IH | done].
Qed.

Lemma replay_split {A} (p : Prog A) tr a rest :
  replay p tr = Some (a, rest) → ∃ used, tr = used ++ rest ∧ runs p used a.
Proof.
  unfold runs; revert tr; induction p as [b | X op k IH]; intros tr; simpl.
  - intros [= -> ->]. by exists [].
  - destruct tr as [| e tr]; [done |].
    destruct (answer op e) as [x |] eqn:Hx; [| done].
    intros (used & -> & Hused)%IH.
    exists (e :: used); simpl. by rewrite Hx.
Qed.

Lemma runs_bind {A B} (p : Prog A) (f : A → Prog B) tr b :
  runs (bind p f) tr b ↔
  ∃ a tr1 tr2, tr = tr1 ++ tr2 ∧ runs p tr1 a ∧ runs (f a) tr2 b.
Proof.
  unfold runs; rewrite replay_bind; split.
  - destruct (replay p tr) as [[a rest] |] eqn:Hp; [| done]; intros Hf.
    apply replay_split in Hp as (used & -> & Hused). by exists a, used, rest.
  - intros (a & tr1 & tr2 & -> & H1 & H2).
    by rewrite (replay_app _ _ _ _ tr2 H1).
Qed.

(** Every environment produces an execution: programs always return. *)
Lemma run_runs {S A} (h : Handler S) (p : Prog A) (s : S) :
  runs p (run h p s).2 (run h p s).1.1.
Proof.
  unfold runs; revert s; induction p as [a | X op k IH]; intros s; simpl; [done |].
  destruct (h X op s) as [x s1] eqn:Hh.
  specialize (IH x s1). destruct (run h (k x) s1) as [[a s2] tr]; simpl in *.
  by rewrite answer_event.
Qed.

Lemma replay_Ret {A} (a b : A) tr rest :
  replay (Ret a) tr = Some (b, rest) → b = a ∧ rest = tr.
Proof. by intros [= -> ->]. Qed.

Lemma replay_Call {X B} (op : Op X) (k : X → Prog B) tr r :
  replay (Call op k) tr = Some r →
  ∃ x tr', tr = event op x :: tr' ∧ replay (k x) tr' = Some r.
Proof.
  simpl. destruct tr as [| e tr]; [done |].
  destruct (answer op e) as [x |] eqn:Hx; [| done].
  apply answer_Some in Hx as ->. eauto.
Qed.

Lemma replay_bind_Some {A B} (p : Prog A) (f : A → Prog B) tr r :
  replay (bind p f) tr = Some r →
  ∃ a rest, replay p tr = Some (a, rest) ∧ replay (f a) rest = Some r.
Proof.
  rewrite replay_bind. destruct (replay p tr) as [[a rest] |]; [eauto | done].
Qed.

(** ** Log lines *)

Lemma log_only_app tr1 tr2 : log_only tr1 → log_only tr2 → log_only (tr1 ++ tr2).
Proof. unfold log_only; rewrite forallb_app; intros -> ->; done. Qed.

Lemma log_only_In tr e : log_only tr → In e tr → is_log e = true.
Proof. unfold log_only; rewrite forallb_forall; auto. Qed.

Lemma log_only_flat_map {B} (f : Event → list B) tr :
  (∀ l lv msg, f (EvLog l lv msg) = []) → log_only tr → flat_map f tr = [].
Proof.
  intros Hf; unfold log_only; induction tr as [| e tr IH]; simpl; [done |].
  intros [He Htr]%andb_prop. destruct e; try discriminate. by rewrite Hf, IH.
Qed.

Lemma log_only_effects tr : log_only tr → effects tr = [].
Proof.
  unfold log_only, effects; induction tr as [| e tr IH]; simpl; [done |].
  intros [-> Htr]%andb_prop; simpl; auto.
Qed.

Lemma effects_app tr1 tr2 : effects (tr1 ++ tr2) = effects tr1 ++ effects tr2.
Proof. apply List.filter_app. Qed.

Arguments replay {A} !p tr : simpl nomatch.

(** One step of an execution. *)
Ltac step :=
  match goal with
  | H : Some _ = Some _ |- _ => simplify_eq/=
  | H : replay (Ret _) _ = Some _ |- _ =>
      apply replay_Ret in H as [? ?]; simplify_eq/=
  | H : replay (call _) _ = Some _ |- _ => unfold call in H
  | H : replay (Call _ _) _ = Some _ |- _ =>
      let x := fresh "x" in let tr := fresh "tr" in
      apply replay_Call in H as (x & tr & -> & H); simpl in H
  | H : replay (if ?c then _ else _) _ = Some _ |- _ =>
      destruct c eqn:?; simpl in H
  | H : replay (bind (if ?c then _ else _) _) _ = Some _ |- _ =>
      destruct c eqn:?; simpl in H
  | H : replay (match ?r with _ => _ end) _ = Some _ |- _ =>
      destruct r eqn:?; simpl in H
  end.

(** ** Admission: [IsAllowed] *)

Section IsAllowedFacts.
Context `{Library} (cfg : UploadsConfig).
Variables contentType reportedContentType userId : string.

Lemma rangeUserExcl_replay userExcl allowed tr b rest :
  replay (rangeUserExcl contentType reportedContentType userId userExcl allowed) tr
    = Some (b, rest) →
  b = allowed || existsb (λ g, Glob g contentType) userExcl
  ∧ ∃ logs, tr = logs ++ rest ∧ log_only logs.
Proof.
  revert tr; induction userExcl as [| exclType userExcl IH]; intros tr Hr; simpl in *.
  - simplify_eq. rewrite orb_false_r. split; [done |]. by exists [].
  - destruct (Glob exclType contentType) eqn:Hg.
    + repeat step. rewrite orb_true_r. split; [done |]. by eexists [_].
    + simpl. by apply IH.
Qed.

Lemma rangePerUserExclusions_replay entries allowed userMatched tr a m rest :
  replay (rangePerUserExclusions contentType reportedContentType userId
            entries allowed userMatched) tr = Some ((a, m), rest) →
  a = allowed || existsb (allows_type contentType)
                   (List.filter (matches_user userId) entries)
  ∧ (a = false → m = userMatched || existsb (matches_user userId) entries)
  ∧ ∃ logs, tr = logs ++ rest ∧ log_only logs.
Proof.
  revert allowed userMatched tr;
    induction entries as [| [user userExcl] entries IH];
    intros allowed userMatched tr Hr; simpl in *.
  - simplify_eq. rewrite !orb_false_r. repeat split; try done. by exists [].
  - change (matches_user userId (user, userExcl)) with (Glob user userId).
    apply replay_bind_Some in Hr as ([a1 m1] & tr3 & Hbody & Hr).
    destruct (Glob user userId) eqn:Hu; simpl in *.
    + apply replay_bind_Some in Hbody as (m1' & tr1 & Hm & Hbody).
      apply replay_bind_Some in Hbody as (a1' & tr2 & Ha & Hret).
      simpl in Hret; simplify_eq.
      assert (m1 = true ∧ ∃ logs, tr = logs ++ tr1 ∧ log_only logs)
        as (-> & logs1 & -> & Hlogs1).
      { destruct userMatched; simpl in Hm.
        - injection Hm as <- <-. split; [done |]. by exists [].
        - simpl in Hm. apply replay_Call in Hm as (x & tr' & -> & Hm).
          injection Hm as <- <-. split; [done |].
          eexists [_]; split; reflexivity. }
      apply rangeUserExcl_replay in Ha as (-> & logs2 & -> & Hlogs2).
      unfold allows_type at 1; simpl.
      destruct (allowed || existsb _ userExcl) eqn:Ha1.
      * simpl in Hr; simplify_eq. rewrite orb_assoc, Ha1; simpl.
        split; [done |]. split; [done |]. exists (logs1 ++ logs2).
        rewrite <- app_assoc. split; [done | by apply log_only_app].
      * apply orb_false_elim in Ha1 as [-> Hex]. rewrite Hex; simpl.
        apply IH in Hr as (-> & Hm' & logs3 & -> & Hlogs3).
        split; [done |]. split.
        { intros Hf. rewrite (Hm' Hf). by destruct userMatched. }
        exists (logs1 ++ logs2 ++ logs3).
        rewrite <- !app_assoc. split; [done |]. by repeat apply log_only_app.
    + simpl in Hbody; simplify_eq. destruct a1; simpl in *.
      * simplify_eq. split; [done |]. split; [done |]. by exists [].
      * exact (IH _ _ _ Hr).
Qed.

End IsAllowedFacts.

Section IsAllowedRule.
Context `{Library} (cfg : UploadsConfig).

Lemma rangeAllowedTypes_existsb contentType allowedTypes allowed :
  rangeAllowedTypes contentType allowedTypes allowed
  = existsb (λ g, Glob g contentType) allowedTypes || allowed.
Proof.
  induction allowedTypes as [| g l IH]; simpl; [done |].
  by destruct (Glob g contentType).
Qed.

Lemma general_rule_loop contentType :
  (if Z.of_nat (length (AllowedTypes cfg)) =? 0 then true
   else rangeAllowedTypes contentType (AllowedTypes cfg) false)
  = general_rule cfg contentType.
Proof.
  unfold general_rule. rewrite rangeAllowedTypes_existsb, orb_false_r.
  by destruct (AllowedTypes cfg).
Qed.

Lemma existsb_filter_nil {A} (f : A → bool) l :
  existsb f l = false ↔ List.filter f l = [].
Proof.
  induction l as [| x l IH]; simpl; [done |].
  destruct (f x); simpl; [split; discriminate | done].
Qed.

(** [IsAllowed] computes the admission rule and only writes log lines. *)
Lemma IsAllowed_replay contentType reportedContentType userId tr b rest :
  replay (IsAllowed cfg contentType reportedContentType userId) tr = Some (b, rest) →
  b = admission_rule cfg contentType userId
  ∧ ∃ logs, tr = logs ++ rest ∧ log_only logs.
Proof.
  unfold IsAllowed, admission_rule.
  intros ([a m] & tr1 & Hloop & Hr)%replay_bind_Some.
  destruct (String.eqb userId NoApplicableUploadUser) eqn:Hu; simpl in *.
  - simplify_eq. apply replay_Call in Hr as (x & tr' & -> & Hr).
    simpl in Hr; simplify_eq. rewrite general_rule_loop.
    split; [done |]. eexists [_]; split; reflexivity.
  - apply rangePerUserExclusions_replay in Hloop as (-> & Hm & logs & -> & Hlogs).
    simpl in *.
    destruct (existsb (allows_type contentType) _) eqn:Ha.
    + rewrite andb_false_r in Hr. simpl in Hr; simplify_eq. split; [| eauto].
      destruct (List.filter _ _); [discriminate | done].
    + rewrite (Hm eq_refl) in Hr. rewrite andb_true_r in Hr.
      destruct (existsb (matches_user userId) _) eqn:Hmatch; simpl in Hr.
      * simplify_eq. split; [| eauto].
        destruct (List.filter _ _) eqn:Hf; [| done].
        apply existsb_filter_nil in Hf. congruence.
      * apply replay_Call in Hr as (x & tr' & -> & Hr).
        simpl in Hr; simplify_eq. rewrite general_rule_loop.
        apply existsb_filter_nil in Hmatch as ->. split; [done |].
        eexists (logs ++ [_]).
        rewrite <- app_assoc. split; [reflexivity |]. by apply log_only_app.
Qed.

End IsAllowedRule.

Lemma Prog_total {A} (p : Prog A) : ∃ tr a, runs p tr a.
Proof. eexists _, _. apply (run_runs offline p tt). Qed.

Lemma IsAllowed_returns `{Library} cfg contentType reportedContentType userId :
  returns (IsAllowed cfg contentType reportedContentType userId)
          (admission_rule cfg contentType userId).
Proof.
  assert (∀ tr b, runs (IsAllowed cfg contentType reportedContentType userId) tr b →
                  b = admission_rule cfg contentType userId) as Hall.
  { intros tr b Hr. by apply IsAllowed_replay in Hr as [-> _]. }
  split; [| done].
  destruct (Prog_total (IsAllowed cfg contentType reportedContentType userId))
    as (tr & b & Hr).
  exists tr. by rewrite <- (Hall _ _ Hr).
Qed.

Lemma existsb_In_iff {A} (f : A → bool) l :
  existsb f l = true ↔ ∃ x, In x l ∧ f x = true.
Proof. apply existsb_exists. Qed.

Lemma general_rule_true `{Library} cfg contentType :
  general_rule cfg contentType = true ↔
  AllowedTypes cfg = [] ∨ ∃ g, In g (AllowedTypes cfg) ∧ Glob g contentType = true.
Proof.
  unfold general_rule. rewrite <- existsb_In_iff.
  destruct (AllowedTypes cfg) as [| g l]; [by split; auto |].
  split; [by right | by intros [? | ?]].
Qed.

Lemma existsb_Permutation {A} (f : A → bool) l l' :
  Permutation l l' → existsb f l = existsb f l'.
Proof.
  intros HP. apply eq_true_iff_eq. rewrite !existsb_In_iff.
  split; intros (x & Hin & Hf); exists x; split; try done.
  - by apply (Permutation_in _ HP).
  - by apply (Permutation_in _ (Permutation_sym HP)).
Qed.

Lemma filter_Permutation {A} (f : A → bool) l l' :
  Permutation l l' → Permutation (List.filter f l) (List.filter f l').
Proof.
  induction 1 as [| x l l' HP IH | x y l | l l' l'' HP1 IH1 HP2 IH2]; simpl.
  - constructor.
  - destruct (f x); [by constructor | done].
  - destruct (f x), (f y); try reflexivity. constructor.
  - by etransitivity.
Qed.

(** The order in which the per-user entries are traversed does not change
    the decision. *)
Lemma admission_rule_Permutation `{Library} maxSize allowedTypes perUser perUser'
    contentType userId :
  Permutation perUser perUser' →
  admission_rule {| MaxSizeBytes := maxSize; AllowedTypes := allowedTypes;
                    PerUserExclusions := perUser |} contentType userId
  = admission_rule {| MaxSizeBytes := maxSize; AllowedTypes := allowedTypes;
                      PerUserExclusions := perUser' |} contentType userId.
Proof.
  intros HP. unfold admission_rule; simpl.
  destruct (String.eqb userId NoApplicableUploadUser); [done |].
  pose proof (filter_Permutation (matches_user userId) _ _ HP) as HPf.
  rewrite (existsb_Permutation (allows_type contentType) _ _ HPf).
  destruct (List.filter (matches_user userId) perUser) as [| e l] eqn:Hf.
  - by apply Permutation_nil in HPf as ->.
  - destruct (List.filter (matches_user userId) perUser') as [| e' l'] eqn:Hf'; [| done].
    by apply Permutation_sym, Permutation_nil in HPf.
Qed.

(** X12: the answer of [IsAllowed] does not depend on the order in which
    the per-user entries are traversed. *)
Lemma IsAllowed_Permutation `{Library} maxSize allowedTypes perUser perUser'
    contentType reportedContentType userId b :
  Permutation perUser perUser' →
  returns (IsAllowed {| MaxSizeBytes := maxSize; AllowedTypes := allowedTypes;
                        PerUserExclusions := perUser |}
                     contentType reportedContentType userId) b →
  returns (IsAllowed {| MaxSizeBytes := maxSize; AllowedTypes := allowedTypes;
                        PerUserExclusions := perUser' |}
                     contentType reportedContentType userId) b.
Proof.
  intros HP [[tr Hr] _]. apply IsAllowed_replay in Hr as [-> _].
  rewrite (admission_rule_Permutation _ _ _ _ _ _ HP). apply IsAllowed_returns.
Qed.

(** C4: for a user other than the sentinel who is matched by some per-user
    pattern, [IsAllowed] returns the same answer whatever the general
    allowed-types list is: true exactly when a MIME glob listed under a
    matching per-user entry matches the sniffed content type.  A user whose
    matching entries list no MIME glob at all is denied. *)
Theorem IsAllowed_per_user_entries_decide `{Library}
    (maxSize : Z) (perUser : list (string * list string))
    (sniffed reported userId : string) :
  userId ≠ NoApplicableUploadUser →
  (∃ user globs, In (user, globs) perUser ∧ Glob user userId = true) →
  ∃ b,
    (∀ allowedTypes,
       returns (IsAllowed {| MaxSizeBytes := maxSize;
                             AllowedTypes := allowedTypes;
                             PerUserExclusions := perUser |}
                          sniffed reported userId) b)
    ∧ (b = true ↔
       ∃ user globs g, In (user, globs) perUser ∧ Glob user userId = true
                       ∧ In g globs ∧ Glob g sniffed = true)
    ∧ ((∀ user globs, In (user, globs) perUser → Glob user userId = true → globs = [])
       → b = false).
Proof.
  intros Hu (user & globs & Hin & Hglob).
  set (matching := List.filter (matches_user userId) perUser).
  assert (In (user, globs) matching) as Hmatching.
  { apply List.filter_In. by split. }
  exists (existsb (allows_type sniffed) matching).
  assert (existsb (allows_type sniffed) matching = true ↔
          ∃ user globs g, In (user, globs) perUser ∧ Glob user userId = true
                          ∧ In g globs ∧ Glob g sniffed = true) as Hiff.
  { rewrite existsb_In_iff. split.
    - intros ([u gs] & [Hi Hm]%List.filter_In & (g & Hg1 & Hg2)%existsb_In_iff).
      by exists u, gs, g.
    - intros (u & gs & g & Hi & Hm & Hg1 & Hg2). exists (u, gs). split.
      + apply List.filter_In. by split.
      + apply existsb_In_iff. by exists g. }
  split; [| split; [done |]].
  - intros allowedTypes.
    pose proof (IsAllowed_returns {| MaxSizeBytes := maxSize;
                                     AllowedTypes := allowedTypes;
                                     PerUserExclusions := perUser |}
                                  sniffed reported userId) as Hret.
    unfold admission_rule in Hret; simpl in Hret. fold matching in Hret.
    apply String.eqb_neq in Hu. rewrite Hu in Hret.
    by destruct matching.
  - intros Hempty. apply not_true_is_false. intros Hex.
    apply Hiff in Hex as (u & gs & g & Hi & Hm & Hg1 & Hg2).
    rewrite (Hempty _ _ Hi Hm) in Hg1. destruct Hg1.
Qed.

(** C5: for the sentinel user, and for a user no per-user pattern matches,
    [IsAllowed] returns the decision of the general list: true exactly when
    the list is empty or one of its patterns matches the sniffed content
    type.  For the sentinel user the per-user entries are not looked at: the
    answer is the same for every per-user table and the only call made is
    the log line announcing the general check. *)
Theorem IsAllowed_general_list_decides `{Library}
    (maxSize : Z) (allowedTypes : list string) (perUser : list (string * list string))
    (sniffed reported userId : string) :
  userId = NoApplicableUploadUser
  ∨ (∀ user globs, In (user, globs) perUser → Glob user userId = false) →
  ∃ b,
    returns (IsAllowed {| MaxSizeBytes := maxSize;
                          AllowedTypes := allowedTypes;
                          PerUserExclusions := perUser |}
                       sniffed reported userId) b
    ∧ (b = true ↔
       allowedTypes = [] ∨ ∃ g, In g allowedTypes ∧ Glob g sniffed = true)
    ∧ (userId = NoApplicableUploadUser →
       ∀ perUser' tr b',
         runs (IsAllowed {| MaxSizeBytes := maxSize;
                            AllowedTypes := allowedTypes;
                            PerUserExclusions := perUser' |}
                         sniffed reported userId) tr b' →
         b' = b
         ∧ tr = [EvLog log InfoLevel
                   "Checking general allowed types due to no matching per-user policy"]).
Proof.
  intros Hcase.
  set (cfg := {| MaxSizeBytes := maxSize; AllowedTypes := allowedTypes;
                 PerUserExclusions := perUser |}).
  exists (general_rule cfg sniffed).
  split; [| split].
  - pose proof (IsAllowed_returns cfg sniffed reported userId) as Hret.
    unfold admission_rule in Hret.
    destruct Hcase as [-> | Hnone]; [done |].
    destruct (String.eqb userId NoApplicableUploadUser); [done |].
    replace (List.filter (matches_user userId) (PerUserExclusions cfg))
      with (@nil (string * list string)) in Hret; [done |].
    symmetry. apply existsb_filter_nil, not_true_is_false. intros Hex.
    apply existsb_In_iff in Hex as ([u gs] & Hi & Hm).
    unfold matches_user in Hm; simpl in Hm.
    by rewrite (Hnone _ _ Hi) in Hm.
  - apply (general_rule_true cfg).
  - intros -> perUser' tr b' Hr. unfold runs, IsAllowed in Hr. simpl in Hr.
    apply replay_Call in Hr as (x & tr' & -> & Hr). simpl in Hr.
    injection Hr as <- ->. split; [| done].
    apply (general_rule_loop cfg sniffed).
Qed.

(** C9: the decision of [IsAllowed] does not depend on the reported content
    type: two calls that differ only in it return the same answer, and an
    execution of [IsAllowed] consists of log lines only. *)
Theorem IsAllowed_ignores_reported_type `{Library} (cfg : UploadsConfig)
    (sniffed r1 r2 userId : string) :
  ∃ b,
    returns (IsAllowed cfg sniffed r1 userId) b
    ∧ returns (IsAllowed cfg sniffed r2 userId) b
    ∧ ∀ r tr b', runs (IsAllowed cfg sniffed r userId) tr b' → b' = b ∧ log_only tr.
Proof.
  exists (admission_rule cfg sniffed userId).
  split; [apply IsAllowed_returns |]. split; [apply IsAllowed_returns |].
  intros r tr b' Hr. apply IsAllowed_replay in Hr as (-> & logs & -> & Hlogs).
  split; [done |]. by rewrite app_nil_r.
Qed.

Lemma IsAllowed_per_user_entries_decide_witness :
  ∃ b,
    returns (IsAllowed (H := Scenario.library) Scenario.per_user_overrides
               "video/mp4" "video/mp4" "@charlie:h") b
    ∧ b = false.
Proof.
  destruct (IsAllowed_per_user_entries_decide (H := Scenario.library)
              10485760 [("@alice:*", ["video/mp4"]); ("@charlie:*", [])]
              "video/mp4" "video/mp4" "@charlie:h")
    as (b & Hret & _ & Hdeny).
  - discriminate.
  - exists "@charlie:*", []. split; [simpl; auto | reflexivity].
  - exists b. split; [apply Hret |]. apply Hdeny.
    intros user globs [[= <- <-] | [[= <- <-] | []]]; [discriminate | reflexivity].
Defined.

Lemma IsAllowed_general_list_decides_witness :
  ∃ b,
    returns (IsAllowed (H := Scenario.library) Scenario.per_user_overrides
               "video/mp4" "video/mp4" Scenario.bob) b
    ∧ b = true.
Proof.
  destruct (IsAllowed_general_list_decides (H := Scenario.library)
              10485760 [] [("@alice:*", ["video/mp4"]); ("@charlie:*", [])]
              "video/mp4" "video/mp4" Scenario.bob)
    as (b & Hret & Hiff & _).
  - right. intros user globs [[= <- <-] | [[= <- <-] | []]]; reflexivity.
  - exists b. split; [apply Hret |]. apply Hiff. by left.
Defined.

(** ** Size pre-check: [IsRequestTooLarge] *)

(** C6: [IsRequestTooLarge] returns false when [MaxSizeBytes] is not
    positive; otherwise, for a content length that is not negative, true
    exactly when it exceeds [MaxSizeBytes]; otherwise, for a header that is
    not empty, true when the header does not parse and else true exactly when
    the parsed value exceeds [MaxSizeBytes]; otherwise false. *)
Theorem IsRequestTooLarge_decision `{Library} (cfg : UploadsConfig)
    (contentLength : Z) (contentLengthHeader : string) :
  ∃ b,
    returns (IsRequestTooLarge cfg contentLength contentLengthHeader) b
    ∧ (MaxSizeBytes cfg ≤ 0 → b = false)
    ∧ (0 < MaxSizeBytes cfg → 0 ≤ contentLength →
       (b = true ↔ MaxSizeBytes cfg < contentLength))
    ∧ (0 < MaxSizeBytes cfg → contentLength < 0 → contentLengthHeader ≠ "" →
       match ParseInt contentLengthHeader with
       | Fail _ => b = true
       | Ok parsed => b = true ↔ MaxSizeBytes cfg < parsed
       end)
    ∧ (0 < MaxSizeBytes cfg → contentLength < 0 → contentLengthHeader = "" →
       b = false).
Proof.
  assert (∃ b tr, runs (IsRequestTooLarge cfg contentLength contentLengthHeader) tr b)
    as (b & tr & Hr) by (destruct (Prog_total (IsRequestTooLarge cfg contentLength
                                      contentLengthHeader)) as (tr & b & Hr); eauto).
  exists b. split.
  { split; [by exists tr |]. intros tr' b' Hr'. revert Hr Hr'.
    unfold runs, IsRequestTooLarge.
    repeat (case_match; simpl); intros; repeat step; congruence. }
  revert Hr. unfold runs, IsRequestTooLarge.
  destruct (Z.leb_spec (MaxSizeBytes cfg) 0) as [Hmax | Hmax]; simpl.
  { intros [= <- _]. repeat split; intros; (done || lia). }
  destruct (Z.geb_spec contentLength 0) as [Hlen | Hlen]; simpl.
  { intros [= <- _]. repeat split; intros; try lia;
      destruct (Z.gtb_spec contentLength (MaxSizeBytes cfg)); (done || lia). }
  destruct (String.eqb_spec contentLengthHeader "") as [-> | Hhdr]; simpl.
  { intros [= <- _]. repeat split; intros; (done || lia). }
  destruct (ParseInt contentLengthHeader) as [parsed | err]; simpl.
  - intros [= <- _]. repeat split; intros; try (done || lia);
      destruct (Z.gtb_spec parsed (MaxSizeBytes cfg)); (done || lia).
  - intros Hr. repeat step. repeat split; intros; (done || lia).
Qed.

Lemma IsRequestTooLarge_decision_witness :
  (∃ b, returns (IsRequestTooLarge (H := Scenario.library) Scenario.images_only
                   (-1) "12 MiB") b ∧ b = true)
  ∧ (∃ b, returns (IsRequestTooLarge (H := Scenario.library) Scenario.images_only
                     (-1) "") b ∧ b = false).
Proof.
  split.
  - destruct (IsRequestTooLarge_decision (H := Scenario.library) Scenario.images_only
                (-1) "12 MiB") as (b & Hret & _ & _ & Hhdr & _).
    exists b. split; [done |]. by apply Hhdr.
  - destruct (IsRequestTooLarge_decision (H := Scenario.library) Scenario.images_only
                (-1) "") as (b & Hret & _ & _ & _ & Hnone).
    exists b. split; [done |]. by apply Hnone.
Defined.

(** ** Reconciliation: [StoreDirect] *)

Lemma trackUploadAsLastAccess_replay `{Library} media tr u rest :
  replay (trackUploadAsLastAccess media) tr = Some (u, rest) →
  ∃ now r,
    tr = EvNowMillis now :: EvUpsertLastAccess (Media.Sha256Hash media) now r
           :: upsert_warning r ++ rest.
Proof.
  unfold trackUploadAsLastAccess; simpl; intros Hr.
  repeat step; [by eexists _, (Some _) | by eexists _, None].
Qed.

Lemma upsert_warning_log_only r : log_only (upsert_warning r).
Proof. by destruct r. Qed.

(** The scan for an exact duplicate returns the first record with the
    caller's triple, if there is one. *)
Lemma rangeRecords_Some userId origin contentType records record :
  rangeRecords userId origin contentType records = Some record →
  In record records ∧ triple record = (userId, origin, contentType).
Proof.
  induction records as [| r l IH]; simpl; [done |].
  destruct (String.eqb_spec (Media.UserId r) userId) as [Hu | Hu]; simpl;
    [destruct (String.eqb_spec (Media.Origin r) origin) as [Ho | Ho]; simpl;
      [destruct (String.eqb_spec (Media.ContentType r) contentType) as [Hc | Hc];
        simpl |] |];
    try (intros [? ?]%IH; by auto).
  intros [= <-]. unfold triple. split; [by left | congruence].
Qed.





Lemma replay_Call_answer {X A} (op : Op X) (k : X → Prog A) e tr x :
  answer op e = Some x → replay (Call op k) (e :: tr) = replay (k x) tr.
Proof.
  intros Hx.
  change (replay (Call op k) (e :: tr))
    with (match answer op e with Some x => replay (k x) tr | None => None end).
  by rewrite Hx.
Qed.

Lemma replay_Ret_eq {A} (a : A) tr : replay (Ret a) tr = Some (a, tr).
Proof. done. Qed.

Lemma replay_bind_runs {A B} (p : Prog A) (f : A → Prog B) tr a rest :
  runs p tr a → replay (bind p f) (tr ++ rest) = replay (f a) rest.
Proof. intros Hr. by rewrite replay_bind, (replay_app _ _ _ _ rest Hr). Qed.

Lemma replay_bind_runs_end {A B} (p : Prog A) (f : A → Prog B) tr a :
  runs p tr a → replay (bind p f) tr = replay (f a) [].
Proof. intros Hr. by rewrite replay_bind, Hr. Qed.

(** Follow a program along a given execution, one call at a time. *)
Ltac forward_call :=
  first
    [ erewrite replay_Call_answer
        by first [ exact (answer_event (Log _ _ _) tt) | exact (answer_event _ _) ]
    | rewrite replay_Ret_eq ].

Lemma trackUploadAsLastAccess_runs `{Library} media hash now upserted :
  hash = Media.Sha256Hash media →
  runs (trackUploadAsLastAccess media)
       (EvNowMillis now :: EvUpsertLastAccess hash now upserted
        :: upsert_warning upserted) tt.
Proof.
  intros ->. unfold runs, trackUploadAsLastAccess.
  destruct upserted;
    repeat first
      [ progress cbn [bind upsert_warning] | progress unfold call | forward_call ];
    done.
Qed.

Opaque IsAllowed trackUploadAsLastAccess rangeRecords.

(** One step of an execution of [StoreDirect]. *)
Ltac sd_step :=
  first
  [ step
  | match goal with
    | H : replay (bind (IsAllowed _ _ _ _) _) _ = Some _ |- _ =>
        let Ha := fresh "Hallowed" in
        let logs := fresh "logs" in
        let Hlogs := fresh "Hlogs" in
        apply replay_bind_Some in H as (? & ? & Ha & H);
        apply IsAllowed_replay in Ha as (-> & logs & -> & Hlogs);
        simpl in H
    | H : replay (bind (trackUploadAsLastAccess _) _) _ = Some _ |- _ =>
        let Ht := fresh "Htrack" in
        apply replay_bind_Some in H as ([] & ? & Ht & H);
        apply trackUploadAsLastAccess_replay in Ht as (? & ? & ->);
        simpl in H
    end ].

(** All executions of [StoreDirect], one goal per path. *)
Ltac sd_paths H :=
  unfold runs, StoreDirect in H; simpl in H; repeat sd_step.

(** Membership of a call in an execution. *)
Ltac in_trace :=
  repeat match goal with
  | H : False |- _ => destruct H
  | H : _ ∨ _ |- _ => destruct H as [H | H]
  | H : @eq Event _ _ |- _ => first [discriminate H | simplify_eq]
  | H : In _ (_ :: _) |- _ => destruct H as [H | H]
  | H : In _ (_ ++ _) |- _ => apply in_app_or in H as [H | H]
  | H : In _ [] |- _ => destruct H
  | H : In ?e ?logs, Hl : log_only ?logs |- _ =>
      apply (log_only_In _ _ Hl) in H; discriminate H
  | H : In ?e (upsert_warning ?r) |- _ =>
      apply (log_only_In _ _ (upsert_warning_log_only r)) in H; discriminate H
  end.

(** Observations of an execution whose log lines are abstract. *)
Ltac observe :=
  unfold removals, renames, inserts, upserts; simpl;
  repeat (rewrite flat_map_app; simpl);
  repeat match goal with
  | Hl : log_only ?logs |- context [flat_map ?f ?logs] =>
      rewrite (log_only_flat_map f logs (λ _ _ _, eq_refl) Hl)
  | |- context [flat_map ?f (upsert_warning ?r)] =>
      rewrite (log_only_flat_map f _ (λ _ _ _, eq_refl) (upsert_warning_log_only r))
  end;
  repeat (rewrite effects_app; simpl);
  repeat match goal with
  | Hl : log_only ?logs |- context [effects ?logs] =>
      rewrite (log_only_effects logs Hl)
  | |- context [effects (upsert_warning ?r)] =>
      rewrite (log_only_effects _ (upsert_warning_log_only r))
  end; simpl.

(** Follow [StoreDirect] along a given execution. *)
Ltac forward :=
  repeat first
    [ progress cbn [bind app negb]
    | progress unfold call
    | rewrite <- app_assoc
    | forward_call
    | erewrite replay_bind_runs by eassumption
    | erewrite replay_bind_runs_end by (by apply trackUploadAsLastAccess_runs) ].

(** C7: when the lookup by hash finds no record and the size of the
    temporary file is not positive, [StoreDirect] returns the "file has no
    contents" error, hands no record to the media store, and leaves the
    temporary file alone: it is neither removed nor renamed. *)
Theorem StoreDirect_empty_file `{Library} (cfg : UploadsConfig) (contents : Reader)
    (contentType filename userId origin mediaId : string)
    (tr : list Event) (res : result Media.t) (hash path : string) (size : Z) :
  runs (StoreDirect cfg contents contentType filename userId origin mediaId) tr res →
  In (EvGetByHash hash (Ok [])) tr →
  In (EvFileSize path (Ok size)) tr →
  size ≤ 0 →
  res = Fail (errors_New "file has no contents")
  ∧ inserts tr = []
  ∧ removals tr = []
  ∧ renames tr = []
  ∧ ∃ datastore location fileMime,
      path = ResolveFilePath datastore location
      ∧ effects tr =
          [ EvPersistFile contents (Ok (datastore, location));
            EvGetMimeType path (Ok fileMime);
            EvGetFileHash path (Ok hash);
            EvGetByHash hash (Ok []);
            EvFileSize path (Ok size) ].
Proof.
  intros Hr Hlookup Hsize Hle. sd_paths Hr; in_trace;
    try match goal with
        | Hz : (_ <=? 0) = false |- _ => apply Z.leb_gt in Hz; lia
        end;
    observe; repeat (split; [done |]); by eexists _, _, _.
Qed.


(** Exhibit a call in an execution. *)
Ltac solve_in :=
  simpl; repeat first [ by left | right | apply in_or_app; right; simpl ].

(** The sentinel user and the users without an exact duplicate both leave
    the scan of the records empty-handed. *)
Lemma no_exact_duplicate userId origin contentType records :
  userId = NoApplicableUploadUser
  ∨ (∀ r, In r records → triple r ≠ (userId, origin, contentType)) →
  (if negb (String.eqb userId NoApplicableUploadUser)
   then rangeRecords userId origin contentType records
   else None) = None.
Proof.
  intros [-> | Hnone]; [done |].
  destruct (negb _); [| done].
  destruct (rangeRecords userId origin contentType records) as [r |] eqn:Hr; [| done].
  apply rangeRecords_Some in Hr as [Hin Ht]. by destruct (Hnone r Hin).
Qed.

(** C3: when the lookup by hash returns records and the exact-duplicate
    short-circuit does not fire, [StoreDirect] reads the clock and hands one
    record to the media store: hash, size, datastore id and location are
    those of the first record of the lookup, origin, media id, user id,
    upload name and reported content type are the arguments, and the creation
    timestamp is the clock's answer.  In an environment where the stream is
    persisted, sniffed, admitted and hashed and the lookup answers such
    records, these calls are made whatever the environment answers next:
    when the insert succeeds and the location of the first record resolves,
    that record is returned; when the insert fails or the location does not
    resolve, the error is.  Every execution whose lookup answered such
    records is one of these. *)
Theorem StoreDirect_clone_and_insert `{Library} (cfg : UploadsConfig)
    (contents : Reader) (contentType filename userId origin mediaId : string)
    (hash : string) (first : Media.t) (others : list Media.t) :
  userId = NoApplicableUploadUser
  ∨ (∀ r, In r (first :: others) → triple r ≠ (userId, origin, contentType)) →
  (∀ datastore location fileMime logs now,
     runs (IsAllowed cfg fileMime contentType userId) logs true →
     let path := ResolveFilePath datastore location in
     let media :=
       {| Media.Origin := origin;
          Media.MediaId := mediaId;
          Media.UploadName := filename;
          Media.ContentType := contentType;
          Media.UserId := userId;
          Media.Sha256Hash := Media.Sha256Hash first;
          Media.SizeBytes := Media.SizeBytes first;
          Media.DatastoreId := Media.DatastoreId first;
          Media.Location := Media.Location first;
          Media.CreationTs := now |} in
     let lookup :=
       EvPersistFile contents (Ok (datastore, location))
       :: EvGetMimeType path (Ok fileMime)
       :: logs
       ++ [ EvGetFileHash path (Ok hash);
            EvGetByHash hash (Ok (first :: others));
            EvLog log InfoLevel ("Duplicate media for hash " +:+ hash);
            EvNowMillis now ] in
     (∀ target exists_ err moved now' upserted,
        runs (StoreDirect cfg contents contentType filename userId origin mediaId)
          (lookup
           ++ [ EvInsert media None;
                EvResolveMediaLocation (Media.DatastoreId first) (Media.Location first)
                  (Ok target);
                EvFileExists target (exists_, err);
                (if bool_decide (err ≠ None) || negb exists_
                 then EvRename path target moved
                 else EvRemove path moved);
                EvNowMillis now';
                EvUpsertLastAccess (Media.Sha256Hash first) now' upserted ]
           ++ upsert_warning upserted)
          (Ok media))
     ∧ (∀ err removed,
          runs (StoreDirect cfg contents contentType filename userId origin mediaId)
            (lookup ++ [EvInsert media (Some err); EvRemove path removed])
            (Fail err))
     ∧ (∀ err,
          runs (StoreDirect cfg contents contentType filename userId origin mediaId)
            (lookup
             ++ [ EvInsert media None;
                  EvResolveMediaLocation (Media.DatastoreId first)
                    (Media.Location first) (Fail err) ])
            (Fail err)))
  ∧ (∀ tr res,
       runs (StoreDirect cfg contents contentType filename userId origin mediaId) tr
            res →
       In (EvGetByHash hash (Ok (first :: others))) tr →
       ∃ now inserted,
         let media :=
           {| Media.Origin := origin;
              Media.MediaId := mediaId;
              Media.UploadName := filename;
              Media.ContentType := contentType;
              Media.UserId := userId;
              Media.Sha256Hash := Media.Sha256Hash first;
              Media.SizeBytes := Media.SizeBytes first;
              Media.DatastoreId := Media.DatastoreId first;
              Media.Location := Media.Location first;
              Media.CreationTs := now |} in
         inserts tr = [media]
         ∧ (∀ m, res = Ok m → m = media)
         ∧ (res = Ok media ↔
            inserted = None
            ∧ ∃ target,
                In (EvResolveMediaLocation (Media.DatastoreId first)
                      (Media.Location first) (Ok target)) tr)
         ∧ ∃ datastore location fileMime after,
             let path := ResolveFilePath datastore location in
             effects tr =
               [ EvPersistFile contents (Ok (datastore, location));
                 EvGetMimeType path (Ok fileMime);
                 EvGetFileHash path (Ok hash);
                 EvGetByHash hash (Ok (first :: others));
                 EvNowMillis now;
                 EvInsert media inserted ] ++ after).
Proof.
  intros Hnone%no_exact_duplicate. split.
  - intros datastore location fileMime logs now Hlogs path media lookup.
    subst path media lookup. unfold runs, StoreDirect.
    repeat split; intros; forward; rewrite Hnone; forward;
      try done; destruct (bool_decide _ || negb _); forward; done.
  - intros tr res Hr Hlookup. sd_paths Hr; in_trace;
      try congruence;
      eexists _, _; observe;
      (split; [reflexivity |]);
      (split; [intros m Hm; by simplify_eq |]);
      (split;
       [ split;
         [ first [ discriminate | intros _; split; [done | eexists; solve_in] ]
         | first [ by intros [? _] | intros [_ [? ?]]; in_trace ] ]
       | ]);
      by eexists _, _, _, _.
Qed.





(** C10: once the clone has been inserted and the location of the first
    record has resolved to a target path, [StoreDirect] returns the clone
    with no error, whatever [FileExists], [Rename] and [Remove] answer: the
    answers of [Rename] and [Remove] are dropped, and an error of
    [FileExists] only selects the rename. *)
Theorem StoreDirect_promotion_errors_discarded `{Library} (cfg : UploadsConfig)
    (contents : Reader) (contentType filename userId origin mediaId : string)
    (tr : list Event) (res : result Media.t)
    (media : Media.t) (datastoreId location targetPath : string) :
  runs (StoreDirect cfg contents contentType filename userId origin mediaId) tr res →
  In (EvInsert media None) tr →
  In (EvResolveMediaLocation datastoreId location (Ok targetPath)) tr →
  res = Ok media
  ∧ ∃ datastore tmp fileMime hash records now exists_ err moved now' upserted,
      let path := ResolveFilePath datastore tmp in
      effects tr =
        [ EvPersistFile contents (Ok (datastore, tmp));
          EvGetMimeType path (Ok fileMime);
          EvGetFileHash path (Ok hash);
          EvGetByHash hash (Ok records);
          EvNowMillis now;
          EvInsert media None;
          EvResolveMediaLocation datastoreId location (Ok targetPath);
          EvFileExists targetPath (exists_, err);
          (if bool_decide (err ≠ None) || negb exists_
           then EvRename path targetPath moved
           else EvRemove path moved);
          EvNowMillis now';
          EvUpsertLastAccess (Media.Sha256Hash media) now' upserted ].
Proof.
  intros Hr Hinsert Hresolve. sd_paths Hr; in_trace.
  all: observe; split; [done |].
  all: eexists _, _, _, _, _, _, _, _, _, _, _.
  all: match goal with Hc : _ || _ = _ |- _ => rewrite Hc end; reflexivity.
Qed.


(** ** The media store across two uploads *)

Lemma store_replay_logs db logs rest :
  log_only logs → store_replay db (logs ++ rest) = store_replay db rest.
Proof.
  unfold log_only; induction logs as [| e logs IH]; simpl; [done |].
  intros [He Hl]%andb_prop. destruct e; try discriminate. auto.
Qed.




(** Read an execution against the store. *)
Ltac store_steps Hs :=
  repeat first
    [ progress simpl in Hs
    | rewrite store_replay_logs in Hs by assumption
    | rewrite store_replay_logs in Hs by apply upsert_warning_log_only
    | match type of Hs with
      | context [decide ?P] => destruct (decide P); [subst |]
      end
    | discriminate Hs ].



(** ** The media store, whatever the order of its answers *)

Lemma with_hash_In hash db m :
  In m (with_hash hash db) ↔ In m db ∧ Media.Sha256Hash m = hash.
Proof. unfold with_hash. by rewrite List.filter_In, String.eqb_eq. Qed.









(** ** The cleanup of the temporary file *)

(** X11: an error return after the stream was persisted has removed the temporary
    file, and nothing else, unless it is the return for a file without
    contents (line 204) or the return for a location that does not resolve
    (line 181).  The error returned is [ErrMediaNotAllowed] or the error a
    collaborator other than [Remove] answered with. *)
Lemma StoreDirect_cleanup_on_error `{Library} (cfg : UploadsConfig)
    (contents : Reader) (contentType filename userId origin mediaId : string)
    (tr : list Event) (err : error) (datastore : Datastore.t) (location : string) :
  runs (StoreDirect cfg contents contentType filename userId origin mediaId) tr
       (Fail err) →
  In (EvPersistFile contents (Ok (datastore, location))) tr →
  (removals tr = [ResolveFilePath datastore location]
   ∧ renames tr = []
   ∧ (err = ErrMediaNotAllowed ∨ In (Some err) (map refusal tr)))
  ∨ (err = errors_New "file has no contents" ∧ removals tr = [] ∧ renames tr = [])
  ∨ (∃ datastoreId location',
       In (EvResolveMediaLocation datastoreId location' (Fail err)) tr
       ∧ removals tr = [] ∧ renames tr = []).
Proof.
  intros Hr Hpersist. sd_paths Hr; in_trace; observe;
    first [ left; repeat (split; [done |]);
            first [ by left | right; rewrite ?map_app; solve_in ]
          | by right; left
          | right; right; eexists _, _; split; [solve_in | done] ].
Qed.

(** C1: two error returns of [StoreDirect] leave the temporary file in
    place.  An upload without bytes whose hash the store does not know is
    answered with "file has no contents", and an upload whose clone was
    inserted but whose location does not resolve is answered with the
    resolver's error; in both executions [Remove] and [Rename] are never
    called. *)
Theorem StoreDirect_error_returns_without_cleanup :
  (runs (StoreDirect (H := Scenario.library) Scenario.open_config []
           "text/plain" "empty.txt" Scenario.alice "h" "CCCC")
        Scenario.empty_upload (Fail (errors_New "file has no contents"))
   ∧ removals Scenario.empty_upload = []
   ∧ renames Scenario.empty_upload = [])
  ∧ (runs (StoreDirect (H := Scenario.library) Scenario.images_only Scenario.png
             "image/png" "b.png" Scenario.bob "h" "BBBB")
          Scenario.bob_upload_unresolved (Fail Scenario.disk_error)
     ∧ inserts Scenario.bob_upload_unresolved = [Scenario.bob_png]
     ∧ removals Scenario.bob_upload_unresolved = []
     ∧ renames Scenario.bob_upload_unresolved = []).
Proof. vm_compute. repeat split. Qed.

(** ** Executions of section 8 *)



Lemma StoreDirect_clone_and_insert_witness :
  (Scenario.carol = NoApplicableUploadUser
   ∨ ∀ r, In r [Scenario.alice_png; Scenario.bob_png] →
          triple r ≠ (Scenario.carol, "h", "image/png"))
  ∧ runs (StoreDirect (H := Scenario.library) Scenario.images_only Scenario.png
            "image/png" "c.png" Scenario.carol "h" "CCCC")
         Scenario.carol_upload (Ok Scenario.carol_png)
  ∧ ∃ now, inserts Scenario.carol_upload
           = [ {| Media.Origin := "h";
                  Media.MediaId := "CCCC";
                  Media.UploadName := "c.png";
                  Media.ContentType := "image/png";
                  Media.UserId := Scenario.carol;
                  Media.Sha256Hash := Media.Sha256Hash Scenario.alice_png;
                  Media.SizeBytes := Media.SizeBytes Scenario.alice_png;
                  Media.DatastoreId := Media.DatastoreId Scenario.alice_png;
                  Media.Location := Media.Location Scenario.alice_png;
                  Media.CreationTs := now |} ].
Proof.
  assert (Scenario.carol = NoApplicableUploadUser
          ∨ ∀ r, In r [Scenario.alice_png; Scenario.bob_png] →
                 triple r ≠ (Scenario.carol, "h", "image/png")) as Hother.
  { right. intros r [<- | [<- | []]]; discriminate. }
  destruct (StoreDirect_clone_and_insert (H := Scenario.library) Scenario.images_only
              Scenario.png "image/png" "c.png" Scenario.carol "h" "CCCC"
              Scenario.hash_png Scenario.alice_png [Scenario.bob_png] Hother)
    as [Hruns Hevery].
  assert (runs (StoreDirect (H := Scenario.library) Scenario.images_only Scenario.png
                  "image/png" "c.png" Scenario.carol "h" "CCCC")
               Scenario.carol_upload (Ok Scenario.carol_png)) as Hrun.
  { destruct (Hruns Scenario.store "tmp/upload1" "image/png" [Scenario.general_check]
                4000) as [Hok _]; [vm_compute; reflexivity |].
    exact (Hok "/media/blob/4c4b" false None None 4001 None). }
  split; [exact Hother |]. split; [exact Hrun |].
  destruct (Hevery _ _ Hrun) as (now & inserted & Hins & _); [solve_in |].
  by exists now.
Defined.

Lemma StoreDirect_empty_file_witness :
  inserts Scenario.empty_upload = []
  ∧ removals Scenario.empty_upload = []
  ∧ renames Scenario.empty_upload = [].
Proof.
  destruct (StoreDirect_empty_file (H := Scenario.library) Scenario.open_config []
              "text/plain" "empty.txt" Scenario.alice "h" "CCCC"
              Scenario.empty_upload (Fail (errors_New "file has no contents"))
              Scenario.hash_empty Scenario.tmp 0)
    as (_ & Hins & Hrem & Hren & _).
  - vm_compute; reflexivity.
  - solve_in.
  - solve_in.
  - lia.
  - done.
Defined.


Lemma StoreDirect_promotion_errors_discarded_witness :
  length (effects Scenario.bob_upload_disk_errors) = 11%nat
  ∧ renames Scenario.bob_upload_disk_errors = [(Scenario.tmp, "/media/blob/4c4b")]
  ∧ removals Scenario.bob_upload_disk_errors = [].
Proof.
  destruct (StoreDirect_promotion_errors_discarded (H := Scenario.library)
              Scenario.images_only Scenario.png "image/png" "b.png" Scenario.bob "h"
              "BBBB" Scenario.bob_upload_disk_errors (Ok Scenario.bob_png)
              Scenario.bob_png "ds1" "blob/4c4b" "/media/blob/4c4b")
    as (_ & ds & tmp & mime & hash & records & now & ex & err & moved & now' & ups & Heff).
  - vm_compute; reflexivity.
  - solve_in.
  - solve_in.
  - split; [by rewrite Heff | by split].
Defined.

(** * Further properties of the controller *)

(** ** Early failures of [StoreDirect] *)

(** X1: when [PersistFile] fails, [StoreDirect] returns its error and makes
    no other call: nothing is sniffed, removed or logged. *)
Theorem StoreDirect_persist_failure `{Library} (cfg : UploadsConfig)
    (contents stream : Reader) (contentType filename userId origin mediaId : string)
    (tr : list Event) (res : result Media.t) (err : error) :
  runs (StoreDirect cfg contents contentType filename userId origin mediaId) tr res →
  In (EvPersistFile stream (Fail err)) tr →
  res = Fail err ∧ tr = [EvPersistFile contents (Fail err)].
Proof.
  intros Hr Hpersist. sd_paths Hr; in_trace. done.
Qed.

(** X2: when the sniffer fails, [StoreDirect] logs the error on the entry
    logger, removes the temporary file and returns the sniffer's error,
    whatever [Remove] answers; it makes no other call. *)
Theorem StoreDirect_sniff_failure `{Library} (cfg : UploadsConfig)
    (contents : Reader) (contentType filename userId origin mediaId : string)
    (tr : list Event) (res : result Media.t) (path : string) (err : error) :
  runs (StoreDirect cfg contents contentType filename userId origin mediaId) tr res →
  In (EvGetMimeType path (Fail err)) tr →
  res = Fail err
  ∧ ∃ datastore location removed,
      path = ResolveFilePath datastore location
      ∧ tr = [ EvPersistFile contents (Ok (datastore, location));
               EvGetMimeType path (Fail err);
               EvLog log ErrorLevel
                 ("Error while checking content type of file: " +:+ Error err);
               EvRemove path removed ].
Proof.
  intros Hr Hsniff. sd_paths Hr; in_trace.
  split; [done |]. by eexists _, _, _.
Qed.

Lemma returns_unique {A} (p : Prog A) (a b : A) : returns p a → returns p b → a = b.
Proof. intros [[tr Hr] _] [_ Hb]. by apply (Hb tr). Qed.

(** X3: when [IsAllowed] denies the sniffed content type, [StoreDirect]
    returns [ErrMediaNotAllowed] after a warning and the removal of the
    temporary file; the file is not hashed and the media store is neither
    queried nor written. *)
Theorem StoreDirect_denied_upload `{Library} (cfg : UploadsConfig)
    (contents : Reader) (contentType filename userId origin mediaId : string)
    (tr : list Event) (res : result Media.t) (path fileMime : string) :
  runs (StoreDirect cfg contents contentType filename userId origin mediaId) tr res →
  In (EvGetMimeType path (Ok fileMime)) tr →
  returns (IsAllowed cfg fileMime contentType userId) false →
  res = Fail ErrMediaNotAllowed
  ∧ In (EvLog log WarnLevel
          ("Content type " +:+ fileMime +:+ " (reported as " +:+ contentType
           +:+ ") is not allowed to be uploaded")) tr
  ∧ ∃ datastore location removed,
      path = ResolveFilePath datastore location
      ∧ effects tr = [ EvPersistFile contents (Ok (datastore, location));
                       EvGetMimeType path (Ok fileMime);
                       EvRemove path removed ].
Proof.
  intros Hr Hsniff Hdenied. sd_paths Hr; in_trace;
    pose proof (returns_unique _ _ _ Hdenied (IsAllowed_returns _ _ _ _)) as Hrule;
    try (rewrite <- Hrule in *; discriminate).
  split; [done |]. split; [solve_in |].
  observe. by eexists _, _, _.
Qed.

(** X4: when hashing the file or the lookup by hash fails, [StoreDirect]
    removes the temporary file and returns that error; nothing is inserted
    and last-access is not touched. *)
Theorem StoreDirect_hash_or_lookup_failure `{Library} (cfg : UploadsConfig)
    (contents : Reader) (contentType filename userId origin mediaId : string)
    (tr : list Event) (res : result Media.t) (path hash : string) (err : error) :
  runs (StoreDirect cfg contents contentType filename userId origin mediaId) tr res →
  In (EvGetFileHash path (Fail err)) tr ∨ In (EvGetByHash hash (Fail err)) tr →
  res = Fail err
  ∧ inserts tr = []
  ∧ upserts tr = []
  ∧ renames tr = []
  ∧ ∃ datastore location fileMime removed,
      let tmp := ResolveFilePath datastore location in
      removals tr = [tmp]
      ∧ (effects tr = [ EvPersistFile contents (Ok (datastore, location));
                        EvGetMimeType tmp (Ok fileMime);
                        EvGetFileHash tmp (Fail err);
                        EvRemove tmp removed ]
         ∨ effects tr = [ EvPersistFile contents (Ok (datastore, location));
                          EvGetMimeType tmp (Ok fileMime);
                          EvGetFileHash tmp (Ok hash);
                          EvGetByHash hash (Fail err);
                          EvRemove tmp removed ]).
Proof.
  intros Hr Hfail. sd_paths Hr; in_trace; observe;
    repeat (split; [done |]); eexists _, _, _, _; (split; [done |]);
    first [ by left | by right ].
Qed.

(** ** Records written and returned by [StoreDirect] *)

(** X5: when the lookup by hash finds no record and the size of the file is
    positive, [StoreDirect] hands one record to the media store, built from
    the arguments, the file's hash and size, the datastore's id, the location
    [PersistFile] answered and the clock.  When the insert succeeds that
    record is returned and the file stays where [PersistFile] put it; when
    the insert fails the file is removed and the insert's error returned. *)
Theorem StoreDirect_fresh_insert `{Library} (cfg : UploadsConfig)
    (contents : Reader) (contentType filename userId origin mediaId : string)
    (tr : list Event) (res : result Media.t) (hash path : string) (size : Z) :
  runs (StoreDirect cfg contents contentType filename userId origin mediaId) tr res →
  In (EvGetByHash hash (Ok [])) tr →
  In (EvFileSize path (Ok size)) tr →
  0 < size →
  ∃ datastore location fileMime now inserted after,
    let media :=
      {| Media.Origin := origin;
         Media.MediaId := mediaId;
         Media.UploadName := filename;
         Media.ContentType := contentType;
         Media.UserId := userId;
         Media.Sha256Hash := hash;
         Media.SizeBytes := size;
         Media.DatastoreId := Datastore.DatastoreId datastore;
         Media.Location := location;
         Media.CreationTs := now |} in
    path = ResolveFilePath datastore location
    ∧ inserts tr = [media]
    ∧ renames tr = []
    ∧ effects tr =
        [ EvPersistFile contents (Ok (datastore, location));
          EvGetMimeType path (Ok fileMime);
          EvGetFileHash path (Ok hash);
          EvGetByHash hash (Ok []);
          EvFileSize path (Ok size);
          EvNowMillis now;
          EvInsert media inserted ] ++ after
    ∧ match inserted with
      | None => res = Ok media ∧ removals tr = []
      | Some err => res = Fail err ∧ removals tr = [path]
      end.
Proof.
  intros Hr Hlookup Hsize Hpos. sd_paths Hr; in_trace;
    try match goal with
        | Hz : (_ <=? 0) = true |- _ => apply Z.leb_le in Hz; lia
        end;
    eexists _, _, _, _, _, _; observe; repeat (split; [reflexivity |]); done.
Qed.

Lemma StoreDirect_inserted_identity `{Library} (cfg : UploadsConfig)
    (contents : Reader) (contentType filename userId origin mediaId : string)
    (tr : list Event) (res : result Media.t) :
  runs (StoreDirect cfg contents contentType filename userId origin mediaId) tr res →
  (length (inserts tr) ≤ 1)%nat
  ∧ ∀ media, In media (inserts tr) →
      Media.Origin media = origin
      ∧ Media.MediaId media = mediaId
      ∧ Media.UploadName media = filename
      ∧ Media.ContentType media = contentType
      ∧ Media.UserId media = userId.
Proof.
  intros Hr. sd_paths Hr; observe; (split; [lia |]);
    intros media Hin; in_trace; by subst.
Qed.

(** X6: [StoreDirect] calls [Insert] at most once, and a record it inserts
    carries the origin, media id, upload name, reported content type and user
    id of the call. *)
Theorem StoreDirect_inserts_callers_record `{Library} (cfg : UploadsConfig)
    (contents : Reader) (contentType filename userId origin mediaId : string)
    (tr : list Event) (res : result Media.t) :
  runs (StoreDirect cfg contents contentType filename userId origin mediaId) tr res →
  (length (inserts tr) ≤ 1)%nat
  ∧ ∀ media, In media (inserts tr) →
      Media.Origin media = origin
      ∧ Media.MediaId media = mediaId
      ∧ Media.UploadName media = filename
      ∧ Media.ContentType media = contentType
      ∧ Media.UserId media = userId.
Proof. apply StoreDirect_inserted_identity. Qed.

(** X7: a record [StoreDirect] returns has the user id, origin and reported
    content type of the call.  It is the record just inserted, or, for a
    user other than the sentinel, a record the lookup answered, in which
    case nothing was inserted. *)
Theorem StoreDirect_returns_callers_record `{Library} (cfg : UploadsConfig)
    (contents : Reader) (contentType filename userId origin mediaId : string)
    (tr : list Event) (media : Media.t) :
  runs (StoreDirect cfg contents contentType filename userId origin mediaId) tr
       (Ok media) →
  triple media = (userId, origin, contentType)
  ∧ (inserts tr = [media]
     ∨ (userId ≠ NoApplicableUploadUser
        ∧ inserts tr = []
        ∧ ∃ hash records, In (EvGetByHash hash (Ok records)) tr ∧ In media records)).
Proof.
  intros Hr. sd_paths Hr; observe.
  all: try (split; [done | by left]).
  match goal with
  | Hq : (if negb ?c then _ else _) = Some _ |- _ =>
      destruct c eqn:Hu; simpl in Hq; [discriminate Hq |];
      apply rangeRecords_Some in Hq as [Hin Ht]
  end.
  split; [done |]. right. split; [by apply String.eqb_neq |]. split; [done |].
  eexists _, _. split; [| exact Hin]. solve_in.
Qed.

(** X8: the only path [StoreDirect] removes or renames is the temporary file
    it persisted, and it does so at most once in a call: one [Remove] or one
    [Rename], never both. *)
Theorem StoreDirect_touches_only_temp_file `{Library} (cfg : UploadsConfig)
    (contents : Reader) (contentType filename userId origin mediaId : string)
    (tr : list Event) (res : result Media.t)
    (datastore : Datastore.t) (location : string) :
  runs (StoreDirect cfg contents contentType filename userId origin mediaId) tr res →
  In (EvPersistFile contents (Ok (datastore, location))) tr →
  (∀ path, In path (removals tr) → path = ResolveFilePath datastore location)
  ∧ (∀ oldpath newpath, In (oldpath, newpath) (renames tr) →
       oldpath = ResolveFilePath datastore location)
  ∧ (length (removals tr) + length (renames tr) ≤ 1)%nat.
Proof.
  intros Hr Hpersist. sd_paths Hr; in_trace; observe;
    (split; [intros path Hin; in_trace; done |]);
    (split; [intros oldpath newpath Hin; in_trace; by simplify_eq |]); lia.
Qed.

(** ** Deduplication against the media store *)

Lemma deduplicated_snoc db m :
  deduplicated db →
  (∀ m', In m' db → Media.Sha256Hash m' = Media.Sha256Hash m → blob m' = blob m) →
  deduplicated (db ++ [m]).
Proof.
  intros Hdb Hm m1 m2 [H1 | [<- | []]]%in_app_or [H2 | [<- | []]]%in_app_or Hh;
    [by apply Hdb | by apply Hm | symmetry; by apply Hm | done].
Qed.

Lemma StoreDirect_store_deduplicated `{Library} (cfg : UploadsConfig)
    (contents : Reader) (contentType filename userId origin mediaId : string)
    (tr : list Event) (res : result Media.t) (db db' : list Media.t) :
  runs (StoreDirect cfg contents contentType filename userId origin mediaId) tr res →
  store_replay db tr = Some db' →
  deduplicated db →
  deduplicated db'.
Proof.
  intros Hr Hs Hdb. sd_paths Hr; try store_steps Hs; simplify_eq; try done.
  all: apply deduplicated_snoc; [done |]; simpl; intros m' Hin Hh.
  all: match goal with
       | Hq : [] = with_hash ?h ?d |- _ =>
           assert (In m' (with_hash h d)) as Hin' by (by apply with_hash_In);
           rewrite <- Hq in Hin'; destruct Hin'
       | Hq : ?first :: _ = with_hash ?h ?d |- _ =>
           assert (In first (with_hash h d)) as [Hin' _]%with_hash_In
             by (rewrite <- Hq; by left);
           apply (Hdb m' first Hin Hin' Hh)
       end.
Qed.


Lemma store_replay_grows db tr db' :
  store_replay db tr = Some db' → ∃ added, db' = db ++ added.
Proof.
  revert db; induction tr as [| e tr IH]; intros db; simpl.
  - intros [= <-]. exists []. by rewrite app_nil_r.
  - destruct e; try apply IH.
    + destruct r; [case_decide; [apply IH | done] | apply IH].
    + destruct r; [apply IH |].
      intros (added & ->)%IH. exists (media :: added). by rewrite <- app_assoc.
Qed.

(** The record a successful call returns is in the store afterwards and has
    the hash of the file. *)
Lemma StoreDirect_returned_record_stored `{Library} (cfg : UploadsConfig)
    (contents : Reader) (contentType filename userId origin mediaId : string)
    (tr : list Event) (media : Media.t) (path hash : string) (db db' : list Media.t) :
  runs (StoreDirect cfg contents contentType filename userId origin mediaId) tr
       (Ok media) →
  store_replay db tr = Some db' →
  In (EvGetFileHash path (Ok hash)) tr →
  In media db' ∧ Media.Sha256Hash media = hash.
Proof.
  intros Hr Hs Hhash. sd_paths Hr; in_trace; store_steps Hs; simplify_eq.
  all: try match goal with
       | Hq : ?first :: _ = with_hash ?h ?d |- _ =>
           assert (In first (with_hash h d)) as [Hin' Hh']%with_hash_In
             by (rewrite <- Hq; by left)
       end.
  all: try (split; [apply in_or_app; right; by left | done]).
  match goal with
  | Hq : (if negb ?c then _ else _) = Some _ |- _ =>
      destruct c; simpl in Hq; [discriminate Hq |];
      apply rangeRecords_Some in Hq as [Hin _]
  end.
  match goal with
  | Hq : _ :: _ = with_hash _ _ |- _ => rewrite Hq in Hin
  end.
  by apply with_hash_In in Hin.
Qed.

(** X10: against a media store that keeps what is inserted and whose records
    of equal hash agree on size, datastore id and location before the first
    upload ([deduplicated]), two successful uploads of files with the same
    hash, one after the other, return records that point at the same file:
    same hash, size, datastore id and location, whoever uploads and under
    whatever name or reported type. *)
Theorem StoreDirect_same_bytes_same_blob `{Library} (cfg cfg' : UploadsConfig)
    (contents contents' : Reader)
    (contentType filename userId origin mediaId : string)
    (contentType' filename' userId' origin' mediaId' : string)
    (tr tr' : list Event) (media media' : Media.t) (path path' hash : string)
    (db db' db'' : list Media.t) :
  deduplicated db →
  runs (StoreDirect cfg contents contentType filename userId origin mediaId) tr
       (Ok media) →
  store_replay db tr = Some db' →
  In (EvGetFileHash path (Ok hash)) tr →
  runs (StoreDirect cfg' contents' contentType' filename' userId' origin' mediaId') tr'
       (Ok media') →
  store_replay db' tr' = Some db'' →
  In (EvGetFileHash path' (Ok hash)) tr' →
  blob media' = blob media.
Proof.
  intros Hdb Hr Hs Hhash Hr' Hs' Hhash'.
  pose proof (StoreDirect_store_deduplicated _ _ _ _ _ _ _ _ _ _ _ Hr Hs Hdb) as Hdb'.
  pose proof (StoreDirect_store_deduplicated _ _ _ _ _ _ _ _ _ _ _ Hr' Hs' Hdb') as Hdb''.
  destruct (StoreDirect_returned_record_stored _ _ _ _ _ _ _ _ _ _ _ _ _ Hr Hs Hhash)
    as [Hin Hh].
  destruct (StoreDirect_returned_record_stored _ _ _ _ _ _ _ _ _ _ _ _ _ Hr' Hs' Hhash')
    as [Hin' Hh'].
  destruct (store_replay_grows _ _ _ Hs') as [added ->].
  apply Hdb''; [done | apply in_or_app; by left | congruence].
Qed.

(** ** The size pre-check and its log line *)

(** X13: the only call [IsRequestTooLarge] can make is one warning on the
    package logger, and it makes it exactly when enforcement is on, the
    content length is negative and the header is present but does not parse;
    the request is then rejected.  When enforcement is off or the content
    length is not negative, the header is not looked at: the answer is the
    same for every header and nothing is logged. *)
Theorem IsRequestTooLarge_header_use `{Library} (cfg : UploadsConfig)
    (contentLength : Z) (contentLengthHeader : string) (tr : list Event) (b : bool) :
  runs (IsRequestTooLarge cfg contentLength contentLengthHeader) tr b →
  (tr = []
   ∨ (tr = [EvLog logrus WarnLevel
              ("Invalid content length header given; assuming too large. Value received: "
               +:+ contentLengthHeader)]
      ∧ b = true))
  ∧ (tr ≠ [] ↔
     0 < MaxSizeBytes cfg ∧ contentLength < 0 ∧ contentLengthHeader ≠ ""
     ∧ ∃ err, ParseInt contentLengthHeader = Fail err)
  ∧ (MaxSizeBytes cfg ≤ 0 ∨ 0 ≤ contentLength →
     ∀ header tr' b', runs (IsRequestTooLarge cfg contentLength header) tr' b' →
                      b' = b ∧ tr' = []).
Proof.
  unfold runs, IsRequestTooLarge.
  destruct (Z.leb_spec (MaxSizeBytes cfg) 0) as [Hmax | Hmax]; simpl.
  { intros [= <- <-]. split; [by left |]. split; [split; [done | lia] |].
    by intros _ header tr' b' [= <- <-]. }
  destruct (Z.geb_spec contentLength 0) as [Hlen | Hlen]; simpl.
  { intros [= <- <-]. split; [by left |]. split; [split; [done | lia] |].
    by intros _ header tr' b' [= <- <-]. }
  destruct (String.eqb_spec contentLengthHeader "") as [-> | Hhdr]; simpl.
  { intros [= <- <-]. split; [by left |]. split; [split; [done | by intros (_ & _ & ? & _)] |].
    intros [? | ?]; lia. }
  destruct (ParseInt contentLengthHeader) as [parsed | err] eqn:Hparse; simpl.
  - intros [= <- <-]. split; [by left |].
    split; [split; [done | by intros (_ & _ & _ & ? & ?)] |].
    intros [? | ?]; lia.
  - intros Hr. repeat step. split; [by right |].
    split; [split; [by eauto | done] |].
    intros [? | ?]; lia.
Qed.

(** ** [UploadMedia] *)

Lemma upload_replay_lift {A B} (p : Prog A) (k : A → UploadProg B) tr r :
  upload_replay (upload_bind (lift p) k) tr = Some r →
  ∃ a used rest,
    tr = map EvCollaborator used ++ rest
    ∧ runs p used a
    ∧ upload_replay (k a) rest = Some r.
Proof.
  revert tr; induction p as [a | X op k' IH]; intros tr; simpl.
  - intros Hk. by exists a, [], tr.
  - destruct tr as [| e tr]; [done |].
    destruct e as [| | e]; simpl; try done.
    destruct (answer op e) as [x |] eqn:Hx; [| done].
    intros (a & used & rest & -> & Hused & Hk)%IH.
    exists a, (e :: used), rest. split; [done |]. split; [| done].
    unfold runs in *.
    change (match answer op e with
            | Some x => replay (k' x) used
            | None => None
            end = Some (a, [])).
    by rewrite Hx.
Qed.

Opaque StoreDirect.

(** The executions of [UploadMedia]: the id is drawn; when that fails the
    stream is closed and the error returned; otherwise [StoreDirect] runs on
    the limited stream with that id, the stream is closed and the result of
    [StoreDirect] returned. *)
Lemma UploadMedia_executions `{Library} (cfg : UploadsConfig) (contents : Reader)
    (contentType filename userId origin : string)
    (tr : list UploadEvent) (res : result Media.t) :
  upload_runs (UploadMedia cfg contents contentType filename userId origin) tr res →
  (∃ err closed,
     tr = [EvGenerateRandomString 64 (Fail err); EvClose contents closed]
     ∧ res = Fail err)
  ∨ (∃ mediaId used closed,
       tr = EvGenerateRandomString 64 (Ok mediaId)
              :: map EvCollaborator used ++ [EvClose contents closed]
       ∧ runs (StoreDirect cfg
                 (if MaxSizeBytes cfg >? 0 then LimitReader contents (MaxSizeBytes cfg)
                  else contents)
                 contentType filename userId origin mediaId) used res).
Proof.
  unfold upload_runs, UploadMedia; simpl.
  destruct tr as [| e tr]; [done |].
  destruct e as [n r | |]; simpl; try done.
  case_decide; [subst n | done].
  destruct r as [mediaId | err].
  - intros (res' & used & rest & -> & Hused & Hclose)%upload_replay_lift.
    simpl in Hclose. destruct rest as [| e rest]; [done |].
    destruct e as [| c closed |]; simpl in Hclose; try done.
    case_decide; [subst c | done]. injection Hclose as -> ->.
    right. by exists mediaId, used, closed.
  - simpl. destruct tr as [| e tr]; [done |].
    destruct e as [| c closed |]; simpl; try done.
    case_decide; [subst c | done]. intros [= <- ->].
    left. by exists err, closed.
Qed.

Transparent StoreDirect.

Lemma collaborator_calls_map used : collaborator_calls (map EvCollaborator used) = used.
Proof. induction used as [| e used IH]; simpl; [done | by rewrite IH]. Qed.

Lemma collaborator_calls_app tr1 tr2 :
  collaborator_calls (tr1 ++ tr2) = collaborator_calls tr1 ++ collaborator_calls tr2.
Proof. apply flat_map_app. Qed.

Lemma closes_app tr1 tr2 : closes (tr1 ++ tr2) = closes tr1 ++ closes tr2.
Proof. apply flat_map_app. Qed.

Lemma closes_map used : closes (map EvCollaborator used) = [].
Proof. induction used as [| e used IH]; simpl; [done | by rewrite IH]. Qed.

(** [StoreDirect] persists the reader it was given, once. *)
Lemma StoreDirect_persists_argument `{Library} (cfg : UploadsConfig)
    (contents : Reader) (contentType filename userId origin mediaId : string)
    (tr : list Event) (res : result Media.t) :
  runs (StoreDirect cfg contents contentType filename userId origin mediaId) tr res →
  persisted tr = [contents].
Proof.
  intros Hr. sd_paths Hr; unfold persisted; simpl;
    repeat (rewrite flat_map_app; simpl);
    repeat match goal with
    | Hl : log_only ?logs |- context [flat_map ?f ?logs] =>
        rewrite (log_only_flat_map f logs (λ _ _ _, eq_refl) Hl)
    | |- context [flat_map ?f (upsert_warning ?r)] =>
        rewrite (log_only_flat_map f _ (λ _ _ _, eq_refl) (upsert_warning_log_only r))
    end; done.
Qed.

(** X14: the datastore never sees more than [MaxSizeBytes] bytes of an
    upload: a reader [UploadMedia] hands to [PersistFile] is a prefix of the
    caller's stream, of at most [MaxSizeBytes] bytes when that bound is
    positive and the whole stream when it is not. *)
Theorem UploadMedia_limits_stream `{Library} (cfg : UploadsConfig) (contents : Reader)
    (contentType filename userId origin : string)
    (tr : list UploadEvent) (res : result Media.t) (stream : Reader) :
  upload_runs (UploadMedia cfg contents contentType filename userId origin) tr res →
  In stream (persisted (collaborator_calls tr)) →
  (∃ cut, contents = stream ++ cut)
  ∧ (0 < MaxSizeBytes cfg → Z.of_nat (length stream) ≤ MaxSizeBytes cfg)
  ∧ (MaxSizeBytes cfg ≤ 0 → stream = contents).
Proof.
  intros [(err & closed & -> & _) | (mediaId & used & closed & -> & Hused)]%UploadMedia_executions;
    simpl; [done |].
  rewrite collaborator_calls_app, collaborator_calls_map; simpl. rewrite app_nil_r.
  rewrite (StoreDirect_persists_argument _ _ _ _ _ _ _ _ _ Hused).
  intros [<- | []].
  destruct (Z.gtb_spec (MaxSizeBytes cfg) 0) as [Hmax | Hmax]; unfold LimitReader.
  - split; [| split; [intros _ | lia]].
    + exists (skipn (Z.to_nat (MaxSizeBytes cfg)) contents).
      by rewrite firstn_skipn.
    + pose proof (firstn_le_length (Z.to_nat (MaxSizeBytes cfg)) contents). lia.
  - split; [| split; [lia | done]]. exists []. by rewrite app_nil_r.
Qed.

(** X15: when no media id can be drawn, [UploadMedia] returns that error
    without calling any collaborator of [StoreDirect]: nothing is persisted;
    the stream is closed. *)
Theorem UploadMedia_id_failure `{Library} (cfg : UploadsConfig) (contents : Reader)
    (contentType filename userId origin : string)
    (tr : list UploadEvent) (res : result Media.t) (n : Z) (err : error) :
  upload_runs (UploadMedia cfg contents contentType filename userId origin) tr res →
  In (EvGenerateRandomString n (Fail err)) tr →
  res = Fail err
  ∧ collaborator_calls tr = []
  ∧ ∃ closed, tr = [EvGenerateRandomString 64 (Fail err); EvClose contents closed].
Proof.
  intros [(err' & closed & -> & ->) | (mediaId & used & closed & -> & Hused)]%UploadMedia_executions
    Hin.
  - destruct Hin as [[= -> ->] | [[=] | []]]. split; [done |]. split; [done |].
    by exists closed.
  - destruct Hin as [[=] | Hin]. apply in_app_or in Hin as [Hin | [[=] | []]].
    apply in_map_iff in Hin as (e & [=] & _).
Qed.

(** X16: [UploadMedia] closes the caller's stream exactly once, as its last
    call, on every return; with a media id drawn, its collaborator calls are
    an execution of [StoreDirect] on the limited stream with that id, and it
    returns what that execution returns. *)
Theorem UploadMedia_closes_stream `{Library} (cfg : UploadsConfig) (contents : Reader)
    (contentType filename userId origin : string)
    (tr : list UploadEvent) (res : result Media.t) :
  upload_runs (UploadMedia cfg contents contentType filename userId origin) tr res →
  closes tr = [contents]
  ∧ (∃ before closed, tr = before ++ [EvClose contents closed])
  ∧ ∀ n mediaId, In (EvGenerateRandomString n (Ok mediaId)) tr →
      runs (StoreDirect cfg
              (if MaxSizeBytes cfg >? 0 then LimitReader contents (MaxSizeBytes cfg)
               else contents)
              contentType filename userId origin mediaId)
           (collaborator_calls tr) res.
Proof.
  intros [(err & closed & -> & ->) | (mediaId & used & closed & -> & Hused)]%UploadMedia_executions.
  - split; [done |]. split; [by eexists [_], _ |].
    intros n mediaId [[=] | [[=] | []]].
  - simpl. rewrite closes_app, closes_map. split; [done |].
    split; [by eexists (_ :: _), _ |].
    intros n mediaId' [[= _ ->] | Hin].
    + rewrite collaborator_calls_app, collaborator_calls_map; simpl.
      by rewrite app_nil_r.
    + apply in_app_or in Hin as [Hin | [[=] | []]].
      apply in_map_iff in Hin as (e & [=] & _).
Qed.

(** X17: the pre-check and the limiter agree.  For a stream whose declared
    content length is its true length, when [IsRequestTooLarge] answers no
    then [UploadMedia] hands the whole stream to the datastore, and when it
    answers yes the datastore gets exactly [MaxSizeBytes] bytes, fewer than
    the stream has. *)
Theorem UploadMedia_after_size_check `{Library} (cfg : UploadsConfig)
    (contents : Reader) (header contentType filename userId origin : string)
    (tooLarge : bool) (tr : list UploadEvent) (res : result Media.t) (stream : Reader) :
  returns (IsRequestTooLarge cfg (Z.of_nat (length contents)) header) tooLarge →
  upload_runs (UploadMedia cfg contents contentType filename userId origin) tr res →
  In stream (persisted (collaborator_calls tr)) →
  if tooLarge
  then Z.of_nat (length stream) = MaxSizeBytes cfg
       ∧ (length stream < length contents)%nat
  else stream = contents.
Proof.
  intros [[tr0 Hcheck] _]
    [(err & closed & -> & _) | (mediaId & used & closed & -> & Hused)]%UploadMedia_executions;
    simpl; [done |].
  rewrite collaborator_calls_app, collaborator_calls_map; simpl. rewrite app_nil_r.
  rewrite (StoreDirect_persists_argument _ _ _ _ _ _ _ _ _ Hused).
  intros [<- | []]. revert Hcheck. unfold runs, IsRequestTooLarge.
  destruct (Z.leb_spec (MaxSizeBytes cfg) 0) as [Hmax | Hmax]; simpl.
  { intros [= <- _]. destruct (Z.gtb_spec (MaxSizeBytes cfg) 0); [lia | done]. }
  destruct (Z.geb_spec (Z.of_nat (length contents)) 0) as [_ | Hneg]; [| lia]; simpl.
  intros [= <- _].
  destruct (Z.gtb_spec (MaxSizeBytes cfg) 0); [| lia]. unfold LimitReader.
  destruct (Z.gtb_spec (Z.of_nat (length contents)) (MaxSizeBytes cfg)) as [Hbig | Hfit].
  - rewrite firstn_length_le by lia. lia.
  - apply firstn_all2. lia.
Qed.

(** X18: the media id [UploadMedia] draws is the media id of every record it
    has inserted, together with the caller's origin; the id is drawn once,
    before any collaborator is called. *)
Theorem UploadMedia_uses_generated_id `{Library} (cfg : UploadsConfig)
    (contents : Reader) (contentType filename userId origin : string)
    (tr : list UploadEvent) (res : result Media.t) (n : Z) (mediaId : string) :
  upload_runs (UploadMedia cfg contents contentType filename userId origin) tr res →
  In (EvGenerateRandomString n (Ok mediaId)) tr →
  (∃ rest, tr = EvGenerateRandomString 64 (Ok mediaId) :: rest
           ∧ ∀ n' r, ¬ In (EvGenerateRandomString n' r) rest)
  ∧ ∀ media, In media (inserts (collaborator_calls tr)) →
      Media.MediaId media = mediaId ∧ Media.Origin media = origin.
Proof.
  intros [(err & closed & -> & _) | (mediaId' & used & closed & -> & Hused)]%UploadMedia_executions
    Hin.
  { by destruct Hin as [[=] | [[=] | []]]. }
  assert (∀ n' r, ¬ In (EvGenerateRandomString n' r)
                       (map EvCollaborator used ++ [EvClose contents closed])) as Hnone.
  { intros n' r [Hd | [[=] | []]]%in_app_or.
    apply in_map_iff in Hd as (e & [=] & _). }
  destruct Hin as [[= _ ->] | Hin]; [| by destruct (Hnone _ _ Hin)].
  split; [by eexists |].
  simpl. rewrite collaborator_calls_app, collaborator_calls_map; simpl.
  rewrite app_nil_r. intros media Hmedia.
  destruct (StoreDirect_inserted_identity _ _ _ _ _ _ _ _ _ Hused) as [_ Hid].
  by destruct (Hid media Hmedia) as (-> & -> & _).
Qed.

(** ** Executions for the further properties *)

Lemma returns_Ret {A} (a : A) : returns (Ret a) a.
Proof. split; [by exists [] | by intros tr a' [= <- _]]. Qed.

Lemma StoreDirect_persist_failure_witness :
  Scenario.persist_failure = [EvPersistFile Scenario.png (Fail Scenario.disk_error)]
  ∧ removals Scenario.persist_failure = [].
Proof.
  destruct (StoreDirect_persist_failure (H := Scenario.library) Scenario.images_only
              Scenario.png Scenario.png "image/png" "a.png" Scenario.alice "h" "AAAA"
              Scenario.persist_failure (Fail Scenario.disk_error) Scenario.disk_error)
    as [_ Htr].
  - vm_compute; reflexivity.
  - solve_in.
  - by rewrite Htr.
Defined.

Lemma StoreDirect_sniff_failure_witness :
  ∃ removed, In (EvRemove Scenario.tmp removed) Scenario.sniff_failure.
Proof.
  destruct (StoreDirect_sniff_failure (H := Scenario.library) Scenario.images_only
              Scenario.png "image/png" "a.png" Scenario.alice "h" "AAAA"
              Scenario.sniff_failure (Fail Scenario.disk_error) Scenario.tmp
              Scenario.disk_error)
    as (_ & datastore & location & removed & _ & Htr).
  - vm_compute; reflexivity.
  - solve_in.
  - exists removed. rewrite Htr. solve_in.
Defined.

Lemma StoreDirect_denied_upload_witness :
  ∃ removed,
    effects Scenario.denied_upload =
      [ EvPersistFile Scenario.zip (Ok (Scenario.store, "tmp/upload1"));
        EvGetMimeType Scenario.tmp (Ok "application/zip");
        EvRemove Scenario.tmp removed ].
Proof.
  destruct (StoreDirect_denied_upload (H := Scenario.library) Scenario.images_only
              Scenario.zip "image/png" "a.png" Scenario.alice "h" "AAAA"
              Scenario.denied_upload (Fail ErrMediaNotAllowed) Scenario.tmp
              "application/zip")
    as (_ & _ & datastore & location & removed & _ & Heff).
  - vm_compute; reflexivity.
  - solve_in.
  - exact (IsAllowed_returns (H := Scenario.library) Scenario.images_only
             "application/zip" "image/png" Scenario.alice).
  - by exists None.
Defined.

Lemma StoreDirect_hash_or_lookup_failure_witness :
  inserts Scenario.lookup_failure = [] ∧ upserts Scenario.lookup_failure = [].
Proof.
  destruct (StoreDirect_hash_or_lookup_failure (H := Scenario.library)
              Scenario.images_only Scenario.png "image/png" "a.png" Scenario.alice "h"
              "AAAA" Scenario.lookup_failure (Fail Scenario.disk_error) Scenario.tmp
              Scenario.hash_png Scenario.disk_error)
    as (_ & Hins & Hups & _).
  - vm_compute; reflexivity.
  - right. solve_in.
  - done.
Defined.

Lemma StoreDirect_fresh_insert_witness :
  ∃ media, inserts Scenario.first_upload = [media] ∧ Media.SizeBytes media = 4.
Proof.
  destruct (StoreDirect_fresh_insert (H := Scenario.library) Scenario.images_only
              Scenario.png "image/png" "a.png" Scenario.alice "h" "AAAA"
              Scenario.first_upload (Ok Scenario.alice_png) Scenario.hash_png
              "/media/blob/4c4b" 4)
    as (datastore & location & fileMime & now & inserted & after & _ & Hins & _).
  - vm_compute; reflexivity.
  - solve_in.
  - solve_in.
  - lia.
  - eexists. split; [exact Hins | reflexivity].
Defined.

Lemma StoreDirect_inserts_callers_record_witness :
  Media.MediaId Scenario.bob_png = "BBBB" ∧ Media.UserId Scenario.bob_png = Scenario.bob.
Proof.
  destruct (StoreDirect_inserts_callers_record (H := Scenario.library)
              Scenario.images_only Scenario.png "image/png" "b.png" Scenario.bob "h"
              "BBBB" Scenario.bob_upload (Ok Scenario.bob_png))
    as [_ Hid].
  - vm_compute; reflexivity.
  - destruct (Hid Scenario.bob_png) as (_ & Hm & _ & _ & Hu); [by left | done].
Defined.

Lemma StoreDirect_returns_callers_record_witness :
  triple Scenario.alice_png = (Scenario.alice, "h", "image/png")
  ∧ inserts Scenario.second_upload ≠ [Scenario.alice_png].
Proof.
  destruct (StoreDirect_returns_callers_record (H := Scenario.library)
              Scenario.images_only Scenario.png "image/png" "a.png" Scenario.alice "h"
              "CCCC" Scenario.second_upload Scenario.alice_png)
    as [Ht Hwhich].
  - vm_compute; reflexivity.
  - split; [exact Ht |]. destruct Hwhich as [Hins | (_ & Hins & _)]; by rewrite Hins.
Defined.

Lemma StoreDirect_touches_only_temp_file_witness :
  (length (removals Scenario.bob_upload_disk_errors)
   + length (renames Scenario.bob_upload_disk_errors) ≤ 1)%nat.
Proof.
  destruct (StoreDirect_touches_only_temp_file (H := Scenario.library)
              Scenario.images_only Scenario.png "image/png" "b.png" Scenario.bob "h"
              "BBBB" Scenario.bob_upload_disk_errors (Ok Scenario.bob_png)
              Scenario.store "tmp/upload1")
    as (_ & _ & Honce).
  - vm_compute; reflexivity.
  - solve_in.
  - exact Honce.
Defined.


Lemma StoreDirect_same_bytes_same_blob_witness :
  blob Scenario.bob_png = blob Scenario.alice_png.
Proof.
  apply (StoreDirect_same_bytes_same_blob (H := Scenario.library)
           Scenario.images_only Scenario.images_only Scenario.png Scenario.png
           "image/png" "a.png" Scenario.alice "h" "AAAA"
           "image/png" "b.png" Scenario.bob "h" "BBBB"
           Scenario.first_upload Scenario.bob_upload Scenario.alice_png Scenario.bob_png
           "/media/blob/4c4b" Scenario.tmp Scenario.hash_png
           [] [Scenario.alice_png] [Scenario.alice_png; Scenario.bob_png]).
  - by intros m1 m2 [].
  - vm_compute; reflexivity.
  - vm_compute; reflexivity.
  - solve_in.
  - vm_compute; reflexivity.
  - vm_compute; reflexivity.
  - solve_in.
Defined.

Lemma StoreDirect_cleanup_on_error_witness :
  removals Scenario.lookup_failure = [Scenario.tmp]
  ∨ removals Scenario.lookup_failure = [].
Proof.
  destruct (StoreDirect_cleanup_on_error (H := Scenario.library) Scenario.images_only
              Scenario.png "image/png" "a.png" Scenario.alice "h" "AAAA"
              Scenario.lookup_failure Scenario.disk_error Scenario.store "tmp/upload1")
    as [(Hrem & _) | [(_ & Hrem & _) | (_ & _ & _ & Hrem & _)]].
  - vm_compute; reflexivity.
  - solve_in.
  - left. exact Hrem.
  - right. exact Hrem.
  - right. exact Hrem.
Defined.

Lemma IsAllowed_Permutation_witness :
  returns (IsAllowed (H := Scenario.library)
             {| MaxSizeBytes := 10485760;
                AllowedTypes := [];
                PerUserExclusions := [("@charlie:*", []); ("@alice:*", ["video/mp4"])] |}
             "video/mp4" "video/mp4" "@charlie:h") false.
Proof.
  apply (IsAllowed_Permutation (H := Scenario.library) 10485760 []
           [("@alice:*", ["video/mp4"]); ("@charlie:*", [])]).
  - apply perm_swap.
  - exact (IsAllowed_returns (H := Scenario.library) Scenario.per_user_overrides
             "video/mp4" "video/mp4" "@charlie:h").
Defined.

Lemma IsRequestTooLarge_header_use_witness :
  ∃ err, ParseInt (Library := Scenario.library) "12 MiB" = Fail err.
Proof.
  destruct (IsRequestTooLarge_header_use (H := Scenario.library) Scenario.images_only
              (-1) "12 MiB"
              [EvLog logrus WarnLevel
                 "Invalid content length header given; assuming too large. Value received: 12 MiB"]
              true) as (_ & [Hlogged _] & _).
  - vm_compute; reflexivity.
  - by destruct Hlogged as (_ & _ & _ & Hparse).
Defined.

Lemma UploadMedia_limits_stream_witness :
  ∃ cut, Scenario.png = [Byte.x89; Byte.x50; Byte.x4e] ++ cut.
Proof.
  destruct (UploadMedia_limits_stream (H := Scenario.library) Scenario.three_bytes
              Scenario.png "image/png" "a.png" Scenario.alice "h"
              UploadScenario.cut_upload (Fail Scenario.disk_error)
              [Byte.x89; Byte.x50; Byte.x4e]) as (Hcut & _).
  - vm_compute; reflexivity.
  - solve_in.
  - exact Hcut.
Defined.

Lemma UploadMedia_id_failure_witness :
  collaborator_calls UploadScenario.no_media_id = [].
Proof.
  destruct (UploadMedia_id_failure (H := Scenario.library) Scenario.images_only
              Scenario.png "image/png" "a.png" Scenario.alice "h"
              UploadScenario.no_media_id (Fail Scenario.disk_error) 64
              Scenario.disk_error) as (_ & Hnone & _).
  - vm_compute; reflexivity.
  - solve_in.
  - exact Hnone.
Defined.

Lemma UploadMedia_closes_stream_witness :
  closes UploadScenario.first_upload_media = [Scenario.png].
Proof.
  destruct (UploadMedia_closes_stream (H := Scenario.library) Scenario.eight_bytes
              Scenario.png "image/png" "a.png" Scenario.alice "h"
              UploadScenario.first_upload_media (Ok Scenario.alice_png)) as (Hclose & _).
  - vm_compute; reflexivity.
  - exact Hclose.
Defined.

Lemma UploadMedia_after_size_check_witness :
  Z.of_nat (length [Byte.x89; Byte.x50; Byte.x4e]) = 3
  ∧ (length [Byte.x89; Byte.x50; Byte.x4e] < length Scenario.png)%nat.
Proof.
  apply (UploadMedia_after_size_check (H := Scenario.library) Scenario.three_bytes
           Scenario.png "" "image/png" "a.png" Scenario.alice "h" true
           UploadScenario.cut_upload (Fail Scenario.disk_error)
           [Byte.x89; Byte.x50; Byte.x4e]).
  - exact (returns_Ret true).
  - vm_compute; reflexivity.
  - solve_in.
Defined.

Lemma UploadMedia_uses_generated_id_witness :
  Media.MediaId Scenario.alice_png = "AAAA" ∧ Media.Origin Scenario.alice_png = "h".
Proof.
  destruct (UploadMedia_uses_generated_id (H := Scenario.library) Scenario.eight_bytes
              Scenario.png "image/png" "a.png" Scenario.alice "h"
              UploadScenario.first_upload_media (Ok Scenario.alice_png) 64 "AAAA")
    as [_ Hid].
  - vm_compute; reflexivity.
  - solve_in.
  - apply Hid. by left.
Defined.
